(** * Cache simulator with replacement policies (stage5_cache_simulator.py)

    A shallow embedding of [CacheSimulator], of its statistics and of
    [generate_access_pattern], followed by the properties of the
    specification that concern them.

    Python values are modelled as follows.
    - [int] is [Z].
    - [float] is IEEE-754 binary64, taken from the Standard Library's
      executable specification [SpecFloat] at precision 53 and maximal
      exponent 1024 (round to nearest, ties to even).
    - [OrderedDict] and [dict] are association lists in iteration order
      (insertion order); [deque] is a list, head on the left.
    - An exception is an outcome of a call; what the method has already
      written to the object when it raises stays written.
    - The module [random] is a stream of raw draws, consumed one per call. *)

From Stdlib Require Import String ZArith NArith List Bool Lia SpecFloat.
Import ListNotations.
Open Scope Z_scope.

(** ** Exceptions and outcomes *)

Inductive exn : Type :=
| StopIteration
| IndexError
| ValueError
| KeyError.

Inductive outcome (A : Type) : Type :=
| Ret (a : A)
| Exc (e : exn).
Arguments Ret {A} a.
Arguments Exc {A} e.

Definition returned {A : Type} (o : outcome A) : bool :=
  match o with Ret _ => true | Exc _ => false end.

(** ** Python floats *)

Module Float.
Definition prec : Z := 53.
Definition emax : Z := 1024.
Definition t : Type := spec_float.
Definition emin : Z := SpecFloat.emin prec emax.

(** [float(n)] for an integer [n]: the nearest double, exact below 2^53.
    (Beyond the range of doubles Python raises where this gives infinity.) *)
Definition of_int (n : Z) : t := binary_normalize prec emax n 0 false.
Definition zero : t := S754_zero false.
Definition mul : t -> t -> t := SFmul prec emax.
Definition div : t -> t -> t := SFdiv prec emax.
Definition sub : t -> t -> t := SFsub prec emax.
Definition ltb : t -> t -> bool := SFltb.

(** [a / b] on two integers, for [b <> 0] (the one call site checks it).
    CPython returns the correctly rounded quotient; when both operands fit
    a double exactly, as any count of calls that a run can reach does, it
    converts them and divides the doubles, which is what is written here. *)
Definition int_truediv (a b : Z) : t := div (of_int a) (of_int b).

(** The literal [0.8], that is 0x1.999999999999ap-1. *)
Definition lit_0_8 : t := S754_finite false 7205759403792794 (-53).
End Float.

(** ** Dictionaries in iteration order *)

Definition dict (V : Type) : Type := list (Z * V).

Section Dict.
Context {V : Type}.

Definition keys (d : dict V) : list Z := map fst d.

(** [d.get(k)] *)
Fixpoint dict_get (k : Z) (d : dict V) : option V :=
  match d with
  | [] => None
  | (k', v) :: t => if k' =? k then Some v else dict_get k t
  end.

(** [k in d] *)
Definition dict_contains (k : Z) (d : dict V) : bool :=
  match dict_get k d with Some _ => true | None => false end.

(** [d[k] = v]: an existing key keeps its place, a new one goes last. *)
Fixpoint dict_setitem (k : Z) (v : V) (d : dict V) : dict V :=
  match d with
  | [] => [(k, v)]
  | (k', v') :: t =>
      if k' =? k then (k', v) :: t else (k', v') :: dict_setitem k v t
  end.

Fixpoint dict_remove (k : Z) (d : dict V) : dict V :=
  match d with
  | [] => []
  | (k', v') :: t => if k' =? k then t else (k', v') :: dict_remove k t
  end.

(** [del d[k]] *)
Definition dict_delitem (k : Z) (d : dict V) : outcome (dict V) :=
  if dict_contains k d then Ret (dict_remove k d) else Exc KeyError.

(** [OrderedDict.move_to_end(k)] *)
Definition move_to_end (k : Z) (d : dict V) : outcome (dict V) :=
  match dict_get k d with
  | Some v => Ret (dict_remove k d ++ [(k, v)])
  | None => Exc KeyError
  end.

(** [next(iter(d))] *)
Definition dict_first (d : dict V) : outcome Z :=
  match d with
  | [] => Exc StopIteration
  | (k, _) :: _ => Ret k
  end.
End Dict.

(** [min(d, key=d.get)]: the keys are walked in iteration order and the
    candidate changes only for a strictly smaller value, so the first key
    of minimal value wins.  [d.get] of a key of [d] is its value. *)
Fixpoint min_scan (best : Z * Z) (rest : dict Z) : Z :=
  match rest with
  | [] => fst best
  | (k, v) :: t => if v <? snd best then min_scan (k, v) t else min_scan best t
  end.

Definition dict_min_by_value (d : dict Z) : outcome Z :=
  match d with
  | [] => Exc ValueError
  | e :: t => Ret (min_scan e t)
  end.

(** ** The class *)

Inductive ReplacementPolicy : Type := LRU | FIFO | LFU | RANDOM.

Record CacheSimulator : Type := mkCacheSimulator {
  capacity : Z;
  policy : ReplacementPolicy;
  cache : dict bool;
  frequency : dict Z;
  fifo_queue : list Z;
  hits : Z;
  misses : Z;
  accesses : list Z;
  hit_rate_history : list Float.t
}.

Definition with_cache (c : dict bool) (s : CacheSimulator) : CacheSimulator :=
  mkCacheSimulator (capacity s) (policy s) c (frequency s) (fifo_queue s)
    (hits s) (misses s) (accesses s) (hit_rate_history s).
Definition with_frequency (f : dict Z) (s : CacheSimulator) : CacheSimulator :=
  mkCacheSimulator (capacity s) (policy s) (cache s) f (fifo_queue s)
    (hits s) (misses s) (accesses s) (hit_rate_history s).
Definition with_fifo_queue (q : list Z) (s : CacheSimulator) : CacheSimulator :=
  mkCacheSimulator (capacity s) (policy s) (cache s) (frequency s) q
    (hits s) (misses s) (accesses s) (hit_rate_history s).
Definition with_hits (h : Z) (s : CacheSimulator) : CacheSimulator :=
  mkCacheSimulator (capacity s) (policy s) (cache s) (frequency s) (fifo_queue s)
    h (misses s) (accesses s) (hit_rate_history s).
Definition with_misses (m : Z) (s : CacheSimulator) : CacheSimulator :=
  mkCacheSimulator (capacity s) (policy s) (cache s) (frequency s) (fifo_queue s)
    (hits s) m (accesses s) (hit_rate_history s).
Definition with_accesses (a : list Z) (s : CacheSimulator) : CacheSimulator :=
  mkCacheSimulator (capacity s) (policy s) (cache s) (frequency s) (fifo_queue s)
    (hits s) (misses s) a (hit_rate_history s).
Definition with_hit_rate_history (h : list Float.t) (s : CacheSimulator) : CacheSimulator :=
  mkCacheSimulator (capacity s) (policy s) (cache s) (frequency s) (fifo_queue s)
    (hits s) (misses s) (accesses s) h.

(** The object that [__init__] builds. *)
Definition fresh (capacity : Z) (policy : ReplacementPolicy) : CacheSimulator :=
  mkCacheSimulator capacity policy [] [] [] 0 0 [] [].

(** [__init__]: every field is set from the arguments or to an empty
    container; nothing is checked, so the constructor always returns. *)
Definition __init__ (capacity : Z) (policy : ReplacementPolicy) : outcome CacheSimulator :=
  Ret (fresh capacity policy).

(** Number of resident blocks, [len(self.cache)]. *)
Definition resident_count (s : CacheSimulator) : Z := Z.of_nat (length (cache s)).
Definition resident (address : Z) (s : CacheSimulator) : bool :=
  dict_contains address (cache s).

(** ** The source of randomness

    The state of the module [random]: the raw draws still to come.  A call
    takes the first one and reduces it to the range it was asked for. *)

Definition Rng : Type := nat -> N.
Definition rng_tail (g : Rng) : Rng := fun i => g (S i).

(** ** Methods: state of the object and of [random], and exceptions *)

Definition World : Type := (CacheSimulator * Rng)%type.
Definition M (A : Type) : Type := World -> outcome A * World.

Definition ret {A : Type} (a : A) : M A := fun w => (Ret a, w).
Definition raise {A : Type} (e : exn) : M A := fun w => (Exc e, w).
Definition bind {A B : Type} (m : M A) (f : A -> M B) : M B :=
  fun w => match m w with
           | (Ret a, w') => f a w'
           | (Exc e, w') => (Exc e, w')
           end.
Definition get_self : M CacheSimulator := fun w => (Ret (fst w), w).
Definition modify (f : CacheSimulator -> CacheSimulator) : M unit :=
  fun w => (Ret tt, (f (fst w), snd w)).
Definition lift {A : Type} (o : outcome A) : M A := fun w => (o, w).

Declare Scope cache_scope.
Delimit Scope cache_scope with cache.
Notation "x <- m ;; k" := (bind m (fun x => k))
  (at level 61, m at next level, right associativity) : cache_scope.
Notation "m ;; k" := (bind m (fun _ => k))
  (at level 61, right associativity) : cache_scope.
Open Scope cache_scope.

(** [random._randbelow(n)] for [n > 0]. *)
Definition randbelow (n : Z) : M Z :=
  fun w => (Ret (Z.of_N (snd w O) mod n), (fst w, rng_tail (snd w))).

(** [random.choice(seq)] *)
Definition choice (seq : list Z) : M Z :=
  match seq with
  | [] => raise IndexError
  | _ :: _ =>
      i <- randbelow (Z.of_nat (length seq)) ;;
      ret (nth (Z.to_nat i) seq 0)
  end.

(** [deque.popleft()] on [self.fifo_queue] *)
Definition fifo_popleft : M Z :=
  self <- get_self ;;
  match fifo_queue self with
  | [] => raise IndexError
  | x :: q => modify (with_fifo_queue q) ;; ret x
  end.

Definition del_cache (address : Z) : M unit :=
  self <- get_self ;;
  c <- lift (dict_delitem address (cache self)) ;;
  modify (with_cache c).

Definition del_frequency (address : Z) : M unit :=
  self <- get_self ;;
  f <- lift (dict_delitem address (frequency self)) ;;
  modify (with_frequency f).

Definition cache_move_to_end (address : Z) : M unit :=
  self <- get_self ;;
  c <- lift (move_to_end address (cache self)) ;;
  modify (with_cache c).

Definition get_hit_rate (self : CacheSimulator) : Float.t :=
  let total := hits self + misses self in
  if total >? 0
  then Float.mul (Float.int_truediv (hits self) total) (Float.of_int 100)
  else Float.zero.

Definition _update_on_hit (address : Z) : M unit :=
  self <- get_self ;;
  match policy self with
  | LRU => cache_move_to_end address
  | LFU =>
      let old := match dict_get address (frequency self) with
                 | Some n => n
                 | None => 0
                 end in
      modify (fun self => with_frequency (dict_setitem address (old + 1) (frequency self)) self)
  | FIFO | RANDOM => ret tt
  end.

Definition _evict : M unit :=
  self <- get_self ;;
  match policy self with
  | LRU =>
      evicted_addr <- lift (dict_first (cache self)) ;;
      del_cache evicted_addr
  | FIFO =>
      evicted_addr <- fifo_popleft ;;
      del_cache evicted_addr
  | LFU =>
      min_freq_addr <- lift (dict_min_by_value (frequency self)) ;;
      del_cache min_freq_addr ;;
      del_frequency min_freq_addr
  | RANDOM =>
      evicted_addr <- choice (keys (cache self)) ;;
      del_cache evicted_addr
  end.

Definition _update_on_miss (address : Z) : M unit :=
  self <- get_self ;;
  (if Z.of_nat (length (cache self)) >=? capacity self then _evict else ret tt) ;;
  modify (fun self => with_cache (dict_setitem address true (cache self)) self) ;;
  self <- get_self ;;
  match policy self with
  | LFU => modify (fun self => with_frequency (dict_setitem address 1 (frequency self)) self)
  | FIFO => modify (fun self => with_fifo_queue (fifo_queue self ++ [address]) self)
  | LRU => cache_move_to_end address
  | RANDOM => ret tt
  end.

Definition record_hit_rate : M unit :=
  modify (fun self =>
            with_hit_rate_history (hit_rate_history self ++ [get_hit_rate self]) self).

Definition access (address : Z) : M bool :=
  modify (fun self => with_accesses (accesses self ++ [address]) self) ;;
  self <- get_self ;;
  if dict_contains address (cache self) then
    modify (fun self => with_hits (hits self + 1) self) ;;
    _update_on_hit address ;;
    record_hit_rate ;;
    ret true
  else
    modify (fun self => with_misses (misses self + 1) self) ;;
    _update_on_miss address ;;
    record_hit_rate ;;
    ret false.

(** [get_statistics]: the returned dictionary, one field per key. *)
Module Stats.
Record t : Type := mk {
  hits : Z;
  misses : Z;
  total_accesses : Z;
  hit_rate : Float.t;
  miss_rate : Float.t
}.
End Stats.

Definition get_statistics (self : CacheSimulator) : Stats.t :=
  Stats.mk (hits self) (misses self) (hits self + misses self)
    (get_hit_rate self)
    (Float.sub (Float.of_int 100) (get_hit_rate self)).

(** ** Callers *)

(** A caller that makes the calls of [trace] one after the other on the
    same object and keeps every outcome, exceptions included. *)
Fixpoint calls (trace : list Z) (w : World) : list (outcome bool) * World :=
  match trace with
  | [] => ([], w)
  | a :: rest =>
      let (o, w') := access a w in
      let (os, w'') := calls rest w' in
      (o :: os, w'')
  end.

(** [for addr in pattern: sim.access(addr)], as in [compare_policies] and
    the main program: the first exception ends the loop. *)
Fixpoint run (pattern : list Z) : M unit :=
  match pattern with
  | [] => ret tt
  | addr :: rest => access addr ;; run rest
  end.

Definition hit_count (os : list (outcome bool)) : Z :=
  Z.of_nat (length (filter (fun o => match o with Ret true => true | _ => false end) os)).


(** ** [generate_access_pattern] *)

(** [range(n)] *)
Definition range (n : Z) : list Z := map Z.of_nat (seq 0 (Z.to_nat n)).

Definition Gen (A : Type) : Type := Rng -> A * Rng.

(** [random.randint(a, b)] for [a <= b]: [a + _randbelow(b - a + 1)]. *)
Definition randint (a b : Z) : Gen Z :=
  fun g => (a + Z.of_N (g O) mod (b - a + 1), rng_tail g).

(** [random.random()]: a multiple of 2^-53 in [0, 1). *)
Definition random_unit : Gen Float.t :=
  fun g => (binary_normalize Float.prec Float.emax (Z.of_N (g O) mod 2 ^ 53) (-53) false,
            rng_tail g).

(** [[random.randint(0, hi) for _ in steps]] *)
Fixpoint random_draws (steps : list Z) (hi : Z) : Gen (list Z) :=
  fun g =>
    match steps with
    | [] => ([], g)
    | _ :: rest =>
        let (x, g1) := randint 0 hi g in
        let (xs, g2) := random_draws rest hi g1 in
        (x :: xs, g2)
    end.

(** The loop of the locality pattern. *)
Fixpoint locality_walk (steps : list Z) (pattern : list Z) (current : Z) : Gen (list Z) :=
  fun g =>
    match steps with
    | [] => (pattern, g)
    | _ :: rest =>
        let pattern := pattern ++ [current] in
        let (u, g1) := random_unit g in
        let (d, g2) := if Float.ltb u Float.lit_0_8
                       then randint 1 5 g1
                       else randint 20 100 g1 in
        locality_walk rest pattern (current + d) g2
    end.

Definition generate_access_pattern (pattern_type : string) (length : Z) : Gen (list Z) :=
  fun g =>
    if String.eqb pattern_type "sequential" then (range length, g)
    else if String.eqb pattern_type "random" then
      random_draws (range length) (length / 2) g
    else if String.eqb pattern_type "locality" then
      locality_walk (range length) [] 0 g
    else if String.eqb pattern_type "stride" then
      let stride := 4 in
      (map (fun i => i * stride) (range length), g)
    else ([], g).

(** ** Definitions used to state and prove the properties *)

Definition is_hit (o : outcome bool) : bool :=
  match o with Ret true => true | _ => false end.

(** The value of [get_hit_rate] as a function of the two counts:
    [h / n * 100], the division first. *)
Definition percent (h n : Z) : Float.t :=
  if n >? 0
  then Float.mul (Float.int_truediv h n) (Float.of_int 100)
  else Float.zero.

(** The formula as the specification writes it, [100*h/n] (and 0.0 for no
    access): the product is an exact integer and the division rounds once. *)
Definition spec_percent (h n : Z) : Float.t :=
  if n >? 0 then Float.int_truediv (100 * h) n else Float.zero.

(** The running rates that a sequence of outcomes appends to the history
    when [h] hits out of [n] calls came before it. *)
Fixpoint running_rates (h n : Z) (os : list (outcome bool)) : list Float.t :=
  match os with
  | [] => []
  | o :: rest =>
      let h' := h + (if is_hit o then 1 else 0) in
      percent h' (n + 1) :: running_rates h' (n + 1) rest
  end.

Fixpoint remove_first (k : Z) (l : list Z) : list Z :=
  match l with
  | [] => []
  | x :: t => if x =? k then t else x :: remove_first k t
  end.

(** The dictionary has no repeated key, and the metadata of the policy in
    use lists the resident blocks in the same order as the cache. *)
Definition consistent (s : CacheSimulator) : Prop :=
  NoDup (keys (cache s)) /\
  (policy s = FIFO -> fifo_queue s = keys (cache s)) /\
  (policy s = LFU -> keys (frequency s) = keys (cache s)).

(** The fields that only [access] itself writes. *)
Definition same_stats (s s' : CacheSimulator) : Prop :=
  capacity s' = capacity s /\ policy s' = policy s /\
  hits s' = hits s /\ misses s' = misses s /\
  accesses s' = accesses s /\ hit_rate_history s' = hit_rate_history s.

(** What [_update_on_miss] does once room has been made. *)
Definition insert_block (address : Z) : M unit :=
  modify (fun self => with_cache (dict_setitem address true (cache self)) self) ;;
  self <- get_self ;;
  match policy self with
  | LFU => modify (fun self => with_frequency (dict_setitem address 1 (frequency self)) self)
  | FIFO => modify (fun self => with_fifo_queue (fifo_queue self ++ [address]) self)
  | LRU => cache_move_to_end address
  | RANDOM => ret tt
  end.

(** On a miss the counters are written first, then [_update_on_miss]
    runs, and the history is extended only if it returns. *)
Definition count_miss (a : Z) (s : CacheSimulator) : CacheSimulator :=
  with_misses (misses s + 1) (with_accesses (accesses s ++ [a]) s).

Definition log_rate (s : CacheSimulator) : CacheSimulator :=
  with_hit_rate_history (hit_rate_history s ++ [get_hit_rate s]) s.

(** A source of randomness for the examples. *)
Definition zeros : Rng := fun _ => 0%N.

Ltac fields :=
  cbn [fst snd capacity policy cache frequency fifo_queue hits misses accesses
       hit_rate_history with_cache with_frequency with_fifo_queue with_hits
       with_misses with_accesses with_hit_rate_history].

Ltac unfold_monad :=
  unfold bind, ret, raise, lift, get_self, modify; fields.

(** ** Definitions for the further properties *)

(** The object and the source of randomness after the calls of [trace]
    on a new object. *)
Definition after (trace : list Z) (c : Z) (p : ReplacementPolicy) (g : Rng) : World :=
  snd (calls trace (fresh c p, g)).

(** The address that [_evict] removes, read off its four branches. *)
Definition victim (s : CacheSimulator) (g : Rng) : Z :=
  match policy s with
  | LRU => hd 0 (keys (cache s))
  | FIFO => hd 0 (fifo_queue s)
  | LFU => match frequency s with
           | [] => 0
           | e :: t => min_scan e t
           end
  | RANDOM =>
      nth (Z.to_nat (Z.of_N (g O) mod Z.of_nat (List.length (keys (cache s)))))
        (keys (cache s)) 0
  end.

(** The source of randomness after [_evict]: one draw is used by RANDOM. *)
Definition rng_after_evict (p : ReplacementPolicy) (g : Rng) : Rng :=
  match p with RANDOM => rng_tail g | _ => g end.

(** Every count of a frequency table is at least 1. *)
Definition counts_positive (f : dict Z) : Prop :=
  forall k n, In (k, n) f -> 1 <= n.

(** What [_evict] raises on an empty cache. *)
Definition empty_cache_error (p : ReplacementPolicy) : exn :=
  match p with
  | LRU => StopIteration
  | FIFO => IndexError
  | LFU => ValueError
  | RANDOM => IndexError
  end.

(** Consecutive addresses differ by a step of the locality walk. *)
Fixpoint locality_steps (x : Z) (l : list Z) : Prop :=
  match l with
  | [] => True
  | y :: t => (1 <= y - x <= 5 \/ 20 <= y - x <= 100) /\ locality_steps y t
  end.

(** ** [compare_policies]

    The table [results] as it stands when the function starts plotting;
    the printing and the plotting themselves are left out. *)

Definition value (p : ReplacementPolicy) : string :=
  match p with
  | LRU => "Least Recently Used"
  | FIFO => "First In First Out"
  | LFU => "Least Frequently Used"
  | RANDOM => "Random"
  end.

Definition policies : list ReplacementPolicy := [LRU; FIFO; LFU; RANDOM].

Definition Results : Type := list (string * list Float.t).

(** [results[name].append(x)] *)
Fixpoint results_append (name : string) (x : Float.t) (r : Results) : outcome Results :=
  match r with
  | [] => Exc KeyError
  | (k, l) :: t =>
      if String.eqb k name then Ret ((k, l ++ [x]) :: t)
      else match results_append name x t with
           | Ret t' => Ret ((k, l) :: t')
           | Exc e => Exc e
           end
  end.

(** [results[name]], when the key is there. *)
Fixpoint results_get (name : string) (r : Results) : option (list Float.t) :=
  match r with
  | [] => None
  | (k, l) :: t => if String.eqb k name then Some l else results_get name t
  end.

(** One simulation of the inner loop: a new simulator, the whole pattern,
    then [get_hit_rate]. *)
Definition simulate (size : Z) (policy : ReplacementPolicy) (access_pattern : list Z)
  : Gen (outcome Float.t) :=
  fun g =>
    match __init__ size policy with
    | Exc e => (Exc e, g)
    | Ret sim =>
        match run access_pattern (sim, g) with
        | (Ret _, (sim', g')) => (Ret (get_hit_rate sim'), g')
        | (Exc e, (_, g')) => (Exc e, g')
        end
    end.

(** [for policy in policies: ...] for one cache size. *)
Fixpoint compare_one_size (size : Z) (access_pattern : list Z)
  (ps : list ReplacementPolicy) (results : Results) : Gen (outcome Results) :=
  fun g =>
    match ps with
    | [] => (Ret results, g)
    | policy :: rest =>
        match simulate size policy access_pattern g with
        | (Exc e, g') => (Exc e, g')
        | (Ret hit_rate, g') =>
            match results_append (value policy) hit_rate results with
            | Exc e => (Exc e, g')
            | Ret results' => compare_one_size size access_pattern rest results' g'
            end
        end
    end.

(** [for size in cache_sizes: ...] *)
Fixpoint compare_sizes (access_pattern : list Z) (cache_sizes : list Z)
  (results : Results) : Gen (outcome Results) :=
  fun g =>
    match cache_sizes with
    | [] => (Ret results, g)
    | size :: rest =>
        match compare_one_size size access_pattern policies results g with
        | (Exc e, g') => (Exc e, g')
        | (Ret results', g') => compare_sizes access_pattern rest results' g'
        end
    end.

Definition compare_policies (access_pattern : list Z) (cache_sizes : list Z)
  : Gen (outcome Results) :=
  compare_sizes access_pattern cache_sizes (map (fun p => (value p, [])) policies).

(** The table with its four rows, in the order of [policies]. *)
Definition results_table (lru fifo lfu random : list Float.t) : Results :=
  [(value LRU, lru); (value FIFO, fifo); (value LFU, lfu); (value RANDOM, random)].

(** The hit rate at the end of one run of a pattern on a new cache. *)
Definition final_hit_rate (pattern : list Z) (size : Z) (p : ReplacementPolicy) (g : Rng)
  : Float.t :=
  get_hit_rate (fst (after pattern size p g)).

(** Case analysis on an innermost scrutinee of the goal. *)
Ltac case_inner :=
  match goal with
  | |- context [match ?x with _ => _ end] =>
      lazymatch x with
      | context [match _ with _ => _ end] => fail
      | _ => destruct x eqn:?
      end
  end.

(** * Properties *)

(** ** Lists of keys *)

Lemma remove_first_length (k : Z) (l : list Z) :
  In k l -> S (List.length (remove_first k l)) = List.length l.
Proof.
  induction l as [|x t IH]; simpl; [tauto|].
  intros [->|Hin].
  - now rewrite Z.eqb_refl.
  - destruct (x =? k); [reflexivity|]. simpl. now rewrite IH.
Qed.

Lemma remove_first_incl (k x : Z) (l : list Z) :
  In x (remove_first k l) -> In x l.
Proof.
  induction l as [|y t IH]; simpl; [tauto|].
  destruct (y =? k); simpl; tauto.
Qed.

Lemma remove_first_keeps (k x : Z) (l : list Z) :
  x <> k -> In x l -> In x (remove_first k l).
Proof.
  intros Hne. induction l as [|y t IH]; simpl; [tauto|].
  destruct (Z.eqb_spec y k) as [->|Hyk]; simpl.
  - intros [E|H]; [congruence|exact H].
  - intros [E|H]; [now left|right; auto].
Qed.

Lemma remove_first_absent (k : Z) (l : list Z) :
  ~ In k l -> remove_first k l = l.
Proof.
  induction l as [|y t IH]; simpl; [reflexivity|].
  intros H. destruct (Z.eqb_spec y k) as [->|Hyk]; [tauto|].
  f_equal. apply IH. tauto.
Qed.

Lemma remove_first_last (k : Z) (l : list Z) :
  ~ In k l -> remove_first k (l ++ [k]) = l.
Proof.
  induction l as [|y t IH]; simpl.
  - now rewrite Z.eqb_refl.
  - intros H. destruct (Z.eqb_spec y k) as [->|Hyk]; [tauto|].
    f_equal. apply IH. tauto.
Qed.

Lemma remove_first_NoDup (k : Z) (l : list Z) :
  NoDup l -> NoDup (remove_first k l) /\ ~ In k (remove_first k l).
Proof.
  induction 1 as [|y t Hy Hnd IH]; simpl.
  - split; [constructor|tauto].
  - destruct (Z.eqb_spec y k) as [->|Hyk]; [now split|].
    destruct IH as [IH1 IH2]. split.
    + constructor; [|exact IH1]. intros H. apply Hy. eapply remove_first_incl; eauto.
    + simpl. intros [E|H]; [congruence|tauto].
Qed.

Lemma NoDup_snoc (k : Z) (l : list Z) :
  NoDup l -> ~ In k l -> NoDup (l ++ [k]).
Proof.
  intros Hnd Hk. induction Hnd as [|y t Hy Hnd IH]; simpl.
  - constructor; [simpl; tauto|constructor].
  - constructor.
    + rewrite in_app_iff. simpl in *. intuition.
    + apply IH. simpl in Hk. tauto.
Qed.

(** ** Dictionaries *)

Section DictFacts.
Context {V : Type}.
Implicit Types (d : dict V) (k : Z) (v : V).

Lemma dict_get_None k d : dict_get k d = None <-> ~ In k (keys d).
Proof.
  induction d as [|[k' v'] t IH]; simpl; [tauto|].
  destruct (Z.eqb_spec k' k) as [->|Hne].
  - split; [discriminate|tauto].
  - rewrite IH. tauto.
Qed.

Lemma dict_contains_In k d : dict_contains k d = true <-> In k (keys d).
Proof.
  unfold dict_contains. destruct (dict_get k d) eqn:E.
  - split; [intros _|reflexivity].
    destruct (in_dec Z.eq_dec k (keys d)) as [H|H]; [exact H|].
    apply dict_get_None in H. congruence.
  - apply dict_get_None in E. split; [discriminate|tauto].
Qed.

Lemma dict_contains_false k d : dict_contains k d = false <-> ~ In k (keys d).
Proof.
  rewrite <- dict_contains_In. destruct (dict_contains k d); split; congruence.
Qed.

Lemma keys_remove k d : keys (dict_remove k d) = remove_first k (keys d).
Proof.
  induction d as [|[k' v'] t IH]; simpl; [reflexivity|].
  destruct (k' =? k); simpl; [reflexivity|now rewrite IH].
Qed.

Lemma keys_setitem_present k v d :
  In k (keys d) -> keys (dict_setitem k v d) = keys d.
Proof.
  induction d as [|[k' v'] t IH]; simpl; [tauto|].
  destruct (Z.eqb_spec k' k) as [->|Hne]; simpl; [reflexivity|].
  intros [E|H]; [congruence|]. now rewrite IH.
Qed.

Lemma keys_setitem_absent k v d :
  ~ In k (keys d) -> keys (dict_setitem k v d) = keys d ++ [k].
Proof.
  induction d as [|[k' v'] t IH]; simpl; [reflexivity|].
  intros H. destruct (Z.eqb_spec k' k) as [->|Hne]; [tauto|].
  simpl. rewrite IH; tauto.
Qed.

Lemma keys_length d : List.length (keys d) = List.length d.
Proof. apply length_map. Qed.
End DictFacts.

Lemma min_scan_In (e : Z * Z) (t : dict Z) : In (min_scan e t) (keys (e :: t)).
Proof.
  revert e. induction t as [|[k v] t IH]; intros e; simpl; [now left|].
  destruct (v <? snd e).
  - right. exact (IH (k, v)).
  - destruct (IH e) as [H|H]; [now left|right; now right].
Qed.

(** ** What the methods keep true *)

Lemma consistent_fresh (c : Z) (p : ReplacementPolicy) : consistent (fresh c p).
Proof. repeat split; simpl; auto using NoDup_nil. Qed.

Lemma dict_get_setitem {V : Type} (k : Z) (v : V) (d : dict V) :
  dict_get k (dict_setitem k v d) = Some v.
Proof.
  induction d as [|[k' v'] t IH]; simpl.
  - now rewrite Z.eqb_refl.
  - destruct (Z.eqb_spec k' k) as [->|Hne]; simpl.
    + now rewrite Z.eqb_refl.
    + destruct (Z.eqb_spec k' k); [contradiction|exact IH].
Qed.

Lemma choice_In (x : Z) (l : list Z) (n : N) :
  In (nth (Z.to_nat (Z.of_N n mod Z.of_nat (List.length (x :: l)))) (x :: l) 0) (x :: l).
Proof.
  apply nth_In.
  assert (H : 0 <= Z.of_N n mod Z.of_nat (List.length (x :: l)) < Z.of_nat (List.length (x :: l))).
  { apply Z.mod_pos_bound. simpl List.length. lia. }
  lia.
Qed.

Lemma evict_nonempty (s : CacheSimulator) (g : Rng) :
  consistent s -> cache s <> [] ->
  exists v s' g',
    _evict (s, g) = (Ret tt, (s', g')) /\
    In v (keys (cache s)) /\
    keys (cache s') = remove_first v (keys (cache s)) /\
    consistent s' /\ same_stats s s'.
Proof.
  destruct s as [cap pol c f q h m acc hist].
  unfold consistent, same_stats; fields. intros (Hnd & Hq & Hf) Hne.
  destruct pol.
  - (* LRU: the first key *)
    destruct c as [|[k v] t]; [congruence|].
    exists k. eexists. exists g.
    unfold _evict, del_cache, dict_delitem, dict_contains, dict_first. unfold_monad.
    simpl. rewrite Z.eqb_refl. split; [reflexivity|]. fields. simpl.
    rewrite ?Z.eqb_refl. inversion Hnd; subst.
    repeat split; auto; discriminate.
  - (* FIFO: the head of the queue, which is the first key *)
    destruct c as [|[k v] t]; [congruence|].
    rewrite (Hq eq_refl). exists k. eexists. exists g.
    unfold _evict, fifo_popleft, del_cache, dict_delitem, dict_contains. unfold_monad.
    simpl. rewrite Z.eqb_refl. split; [reflexivity|]. fields. simpl.
    rewrite ?Z.eqb_refl. inversion Hnd; subst.
    repeat split; auto; discriminate.
  - (* LFU: a key of the frequency table, which has the keys of the cache *)
    specialize (Hf eq_refl).
    destruct f as [|e t]; [destruct c; [congruence|discriminate]|].
    pose proof (min_scan_In e t) as Hin. rewrite Hf in Hin.
    exists (min_scan e t). eexists. exists g.
    unfold _evict, del_cache, del_frequency, dict_delitem, dict_min_by_value. unfold_monad.
    assert (Hc : dict_contains (min_scan e t) c = true) by now apply dict_contains_In.
    assert (Hfc : dict_contains (min_scan e t) (e :: t) = true)
      by (apply dict_contains_In; now rewrite Hf).
    rewrite Hc. fields. rewrite Hfc. split; [reflexivity|]. fields.
    rewrite !keys_remove. rewrite Hf.
    repeat split; auto; try discriminate.
    apply remove_first_NoDup, Hnd.
  - (* RANDOM: some key *)
    destruct (keys c) as [|k0 ks] eqn:Hk; [destruct c; [congruence|discriminate]|].
    set (x := nth (Z.to_nat (Z.of_N (g O) mod Z.of_nat (List.length (k0 :: ks)))) (k0 :: ks) 0).
    assert (Hin : In x (keys c)) by (rewrite Hk; apply choice_In).
    exists x. eexists. exists (rng_tail g).
    unfold _evict, choice, randbelow, del_cache, dict_delitem. unfold_monad.
    rewrite Hk. unfold_monad. fold x.
    assert (Hc : dict_contains x c = true) by now apply dict_contains_In.
    rewrite Hc. split; [reflexivity|]. fields.
    rewrite keys_remove, Hk. rewrite Hk in Hin.
    repeat split; auto; try discriminate.
    apply remove_first_NoDup, Hnd.
Qed.

Lemma evict_empty (s : CacheSimulator) (g : Rng) :
  consistent s -> cache s = [] ->
  exists e, _evict (s, g) = (Exc e, (s, g)).
Proof.
  destruct s as [cap pol c f q h m acc hist].
  unfold consistent; fields. intros (_ & Hq & Hf) ->.
  destruct pol.
  - exists StopIteration. reflexivity.
  - exists IndexError. rewrite (Hq eq_refl). reflexivity.
  - exists ValueError. specialize (Hf eq_refl).
    destruct f; [reflexivity|discriminate].
  - exists IndexError. reflexivity.
Qed.

Lemma update_on_miss_unfold (address : Z) :
  _update_on_miss address =
  (self <- get_self ;;
   (if Z.of_nat (List.length (cache self)) >=? capacity self then _evict else ret tt) ;;
   insert_block address).
Proof. reflexivity. Qed.

Lemma keys_app {V : Type} (d1 d2 : dict V) : keys (d1 ++ d2) = keys d1 ++ keys d2.
Proof. apply map_app. Qed.

Lemma keys_insert_then_move {V : Type} (a : Z) (v : V) (d : dict V) :
  ~ In a (keys d) ->
  keys (dict_remove a (dict_setitem a v d) ++ [(a, v)]) = keys d ++ [a].
Proof.
  intros Ha. rewrite keys_app, keys_remove, keys_setitem_absent by exact Ha.
  now rewrite remove_first_last.
Qed.

Lemma insert_block_absent (s : CacheSimulator) (g : Rng) (a : Z) :
  consistent s -> ~ In a (keys (cache s)) ->
  exists s',
    insert_block a (s, g) = (Ret tt, (s', g)) /\
    keys (cache s') = keys (cache s) ++ [a] /\
    consistent s' /\ same_stats s s'.
Proof.
  destruct s as [cap pol c f q h m acc hist].
  unfold consistent, same_stats; fields. intros (Hnd & Hq & Hf) Ha.
  pose proof (keys_setitem_absent a true c Ha) as Hk.
  pose proof (NoDup_snoc a (keys c) Hnd Ha) as Hnd'.
  destruct pol; eexists;
    unfold insert_block, cache_move_to_end, move_to_end; unfold_monad.
  - rewrite dict_get_setitem. split; [reflexivity|]. fields.
    rewrite (keys_insert_then_move a true c Ha).
    repeat split; auto; discriminate.
  - split; [reflexivity|]. fields. rewrite Hk, (Hq eq_refl).
    repeat split; auto; discriminate.
  - split; [reflexivity|]. fields. rewrite Hk.
    rewrite keys_setitem_absent by (rewrite (Hf eq_refl); exact Ha).
    rewrite (Hf eq_refl). repeat split; auto; discriminate.
  - split; [reflexivity|]. fields. rewrite Hk.
    repeat split; auto; discriminate.
Qed.

Lemma update_on_miss_room (s : CacheSimulator) (g : Rng) (a : Z) :
  consistent s -> ~ In a (keys (cache s)) ->
  Z.of_nat (List.length (cache s)) < capacity s ->
  exists s',
    _update_on_miss a (s, g) = (Ret tt, (s', g)) /\
    keys (cache s') = keys (cache s) ++ [a] /\
    consistent s' /\ same_stats s s'.
Proof.
  intros Hc Ha Hlt.
  destruct (insert_block_absent s g a Hc Ha) as (s' & E & H).
  exists s'. split; [|exact H].
  rewrite update_on_miss_unfold. unfold bind at 1 2, get_self. fields.
  destruct (Z.geb_spec (Z.of_nat (List.length (cache s))) (capacity s)); [lia|].
  unfold ret at 1. exact E.
Qed.

Lemma same_stats_trans (s1 s2 s3 : CacheSimulator) :
  same_stats s1 s2 -> same_stats s2 s3 -> same_stats s1 s3.
Proof. unfold same_stats. intuition congruence. Qed.

Lemma update_on_miss_full (s : CacheSimulator) (g : Rng) (a : Z) :
  consistent s -> ~ In a (keys (cache s)) ->
  capacity s <= Z.of_nat (List.length (cache s)) -> cache s <> [] ->
  exists v s' g',
    _update_on_miss a (s, g) = (Ret tt, (s', g')) /\
    In v (keys (cache s)) /\
    keys (cache s') = remove_first v (keys (cache s)) ++ [a] /\
    consistent s' /\ same_stats s s'.
Proof.
  intros Hc Ha Hge Hne.
  destruct (evict_nonempty s g Hc Hne) as (v & s1 & g1 & E1 & Hv & Hk1 & Hc1 & Hs1).
  assert (Ha1 : ~ In a (keys (cache s1))).
  { rewrite Hk1. intros H. apply Ha. eapply remove_first_incl; eauto. }
  destruct (insert_block_absent s1 g1 a Hc1 Ha1) as (s' & E & Hk & Hc' & Hs').
  exists v, s', g1. split.
  - rewrite update_on_miss_unfold. unfold bind at 1 2, get_self. fields.
    destruct (Z.geb_spec (Z.of_nat (List.length (cache s))) (capacity s)); [|lia].
    rewrite E1. exact E.
  - rewrite Hk, Hk1. eauto using same_stats_trans.
Qed.

Lemma update_on_miss_empty (s : CacheSimulator) (g : Rng) (a : Z) :
  consistent s -> capacity s <= 0 -> cache s = [] ->
  exists e, _update_on_miss a (s, g) = (Exc e, (s, g)).
Proof.
  intros Hc Hcap He.
  destruct (evict_empty s g Hc He) as (e & E).
  exists e. rewrite update_on_miss_unfold. unfold bind at 1 2, get_self. fields.
  destruct (Z.geb_spec (Z.of_nat (List.length (cache s))) (capacity s)) as [_|Hlt];
    [|rewrite He in Hlt; simpl in Hlt; lia].
  rewrite E. reflexivity.
Qed.

(** ** One call of [access] *)

Lemma keys_setitem_any_value {V : Type} (k : Z) (v v' : V) (d : dict V) :
  keys (dict_setitem k v d) = keys (dict_setitem k v' d).
Proof.
  induction d as [|[k' w] t IH]; simpl; [reflexivity|].
  destruct (k' =? k); simpl; [reflexivity|now rewrite IH].
Qed.

(** A hit, from any state of the object whatsoever. *)
Lemma access_hit (s : CacheSimulator) (g : Rng) (a : Z) :
  resident a s = true ->
  exists s',
    access a (s, g) = (Ret true, (s', g)) /\
    capacity s' = capacity s /\ policy s' = policy s /\
    hits s' = hits s + 1 /\ misses s' = misses s /\
    hit_rate_history s' = hit_rate_history s ++ [get_hit_rate s'] /\
    keys (cache s') = match policy s with
                      | LRU => remove_first a (keys (cache s)) ++ [a]
                      | _ => keys (cache s)
                      end /\
    fifo_queue s' = fifo_queue s /\
    keys (frequency s') = match policy s with
                          | LFU => keys (dict_setitem a 0 (frequency s))
                          | _ => keys (frequency s)
                          end.
Proof.
  destruct s as [cap pol c f q h m acc hist]. unfold resident; fields. intros Hr.
  unfold access. unfold_monad. rewrite Hr.
  destruct pol;
    unfold _update_on_hit, record_hit_rate, cache_move_to_end, move_to_end; unfold_monad.
  - unfold dict_contains in Hr. destruct (dict_get a c) as [v|] eqn:E; [|discriminate].
    eexists. split; [reflexivity|]. fields.
    rewrite keys_app, keys_remove. repeat split; reflexivity.
  - eexists. split; [reflexivity|]. fields. repeat split; reflexivity.
  - eexists. split; [reflexivity|]. fields.
    repeat split; try reflexivity. apply keys_setitem_any_value.
  - eexists. split; [reflexivity|]. fields. repeat split; reflexivity.
Qed.

Lemma access_miss_unfold (s : CacheSimulator) (g : Rng) (a : Z) :
  resident a s = false ->
  access a (s, g) =
  match _update_on_miss a (count_miss a s, g) with
  | (Ret _, (s2, g2)) => (Ret false, (log_rate s2, g2))
  | (Exc e, w) => (Exc e, w)
  end.
Proof.
  unfold resident. intros Hr. unfold access. unfold bind at 1 2. unfold modify at 1.
  unfold get_self at 1. fields. rewrite Hr.
  unfold bind at 1 2. unfold modify at 1. fields.
  fold (count_miss a s).
  destruct (_update_on_miss a (count_miss a s, g)) as [[[]|e] [s2 g2]]; reflexivity.
Qed.

Lemma count_miss_fields (a : Z) (s : CacheSimulator) :
  (consistent s -> consistent (count_miss a s)) /\
  cache (count_miss a s) = cache s /\
  capacity (count_miss a s) = capacity s /\
  policy (count_miss a s) = policy s /\
  hits (count_miss a s) = hits s /\
  misses (count_miss a s) = misses s + 1 /\
  hit_rate_history (count_miss a s) = hit_rate_history s.
Proof. destruct s. split; [exact (fun H => H)|]. repeat split. Qed.

Lemma log_rate_fields (s : CacheSimulator) :
  (consistent s -> consistent (log_rate s)) /\
  cache (log_rate s) = cache s /\
  capacity (log_rate s) = capacity s /\
  policy (log_rate s) = policy s /\
  hits (log_rate s) = hits s /\
  misses (log_rate s) = misses s /\
  hit_rate_history (log_rate s) = hit_rate_history s ++ [get_hit_rate (log_rate s)].
Proof. destruct s. split; [exact (fun H => H)|]. repeat split. Qed.

(** The summary of a call that the runs below are built on. *)
Lemma access_step (s : CacheSimulator) (g : Rng) (a : Z) :
  consistent s ->
  exists o s' g',
    access a (s, g) = (o, (s', g')) /\
    consistent s' /\
    capacity s' = capacity s /\ policy s' = policy s /\
    hits s' = hits s + (if is_hit o then 1 else 0) /\
    misses s' = misses s + (if is_hit o then 0 else 1) /\
    hit_rate_history s' =
      hit_rate_history s ++ (if returned o then [get_hit_rate s'] else []) /\
    resident_count s' <= Z.max (resident_count s) (capacity s) /\
    (returned o = false -> capacity s <= 0) /\
    (resident a s = false -> resident_count s < capacity s ->
     o = Ret false /\ keys (cache s') = keys (cache s) ++ [a]).
Proof.
  intros Hc. destruct (resident a s) eqn:Hr.
  - destruct (access_hit s g a Hr)
      as (s' & E & Hcap & Hpol & Hh & Hm & Hhist & Hk & Hq & Hf).
    exists (Ret true), s', g. split; [exact E|].
    destruct Hc as (Hnd & Hcq & Hcf).
    apply dict_contains_In in Hr.
    assert (Hlen : List.length (cache s') = List.length (cache s)).
    { rewrite <- !keys_length, Hk. destruct (policy s); try reflexivity.
      rewrite length_app. simpl. rewrite <- (remove_first_length a (keys (cache s)) Hr). lia. }
    simpl is_hit. simpl returned. unfold resident_count. rewrite Hlen.
    split; [|repeat split; auto; try lia; try discriminate].
    repeat split.
    + rewrite Hk. destruct (policy s); auto.
      apply NoDup_snoc; apply remove_first_NoDup; exact Hnd.
    + rewrite Hpol. intros Hp. rewrite Hq, Hk, Hp. auto.
    + rewrite Hpol. intros Hp. rewrite Hf, Hk, Hp.
      rewrite keys_setitem_present; [auto|]. rewrite (Hcf Hp). exact Hr.
  - rewrite (access_miss_unfold s g a Hr).
    destruct (count_miss_fields a s) as (Hc1 & Ec & Ecap & Epol & Eh & Em & Ehist).
    specialize (Hc1 Hc).
    assert (Ha : ~ In a (keys (cache (count_miss a s))))
      by (rewrite Ec; apply dict_contains_false; exact Hr).
    unfold resident_count. rewrite <- Ec, <- Ecap.
    set (s1 := count_miss a s) in *. clearbody s1.
    destruct (Z.ltb_spec (Z.of_nat (List.length (cache s1))) (capacity s1)) as [Hlt|Hge].
    + destruct (update_on_miss_room s1 g a Hc1 Ha Hlt)
        as (s2 & E & Hk & Hc2 & (S1 & S2 & S3 & S4 & S5 & S6)).
      rewrite E.
      destruct (log_rate_fields s2) as (L0 & L1 & L2 & L3 & L4 & L5 & L6).
      exists (Ret false), (log_rate s2), g. split; [reflexivity|].
      split; [exact (L0 Hc2)|].
      simpl is_hit. simpl returned.
      assert (Hlen : List.length (cache s2) = S (List.length (cache s1))).
      { rewrite <- (keys_length (cache s2)), Hk, length_app, keys_length. simpl. lia. }
      rewrite L1, L2, L3, L4, L5, L6, Hlen, S1, S2, S3, S4, S6, Hk.
      rewrite Epol, Eh, Em, Ehist.
      repeat split; auto; try lia; try discriminate.
    + destruct (cache s1) as [|b t] eqn:Hcache.
      * simpl in Hge.
        destruct (update_on_miss_empty s1 g a Hc1 Hge Hcache) as (e & E).
        rewrite E. exists (Exc e), s1, g. split; [reflexivity|].
        split; [exact Hc1|].
        simpl is_hit. simpl returned.
        rewrite app_nil_r, Hcache. simpl List.length.
        rewrite Epol, Eh, Em, Ehist.
        repeat split; auto; try lia.
      * assert (Hne : cache s1 <> []) by (rewrite Hcache; discriminate).
        rewrite <- Hcache in *.
        destruct (update_on_miss_full s1 g a Hc1 Ha Hge Hne)
          as (v & s2 & g2 & E & Hv & Hk & Hc2 & (S1 & S2 & S3 & S4 & S5 & S6)).
        rewrite E.
        destruct (log_rate_fields s2) as (L0 & L1 & L2 & L3 & L4 & L5 & L6).
        exists (Ret false), (log_rate s2), g2. split; [reflexivity|].
        split; [exact (L0 Hc2)|].
        simpl is_hit. simpl returned.
        assert (Hlen : List.length (cache s2) = List.length (cache s1)).
        { rewrite <- (keys_length (cache s2)), Hk, length_app. simpl.
          rewrite <- (keys_length (cache s1)).
          rewrite <- (remove_first_length v (keys (cache s1)) Hv). lia. }
        rewrite L1, L2, L3, L4, L5, L6, Hlen, S1, S2, S3, S4, S6.
        rewrite Epol, Eh, Em, Ehist.
        repeat split; auto; try lia; try discriminate.
Qed.

(** ** Sequences of calls *)

Lemma get_hit_rate_percent (s : CacheSimulator) :
  get_hit_rate s = percent (hits s) (hits s + misses s).
Proof. reflexivity. Qed.

Lemma hit_count_cons (o : outcome bool) (os : list (outcome bool)) :
  hit_count (o :: os) = (if is_hit o then 1 else 0) + hit_count os.
Proof.
  unfold hit_count. destruct o as [[|]|e]; cbn [is_hit filter List.length]; lia.
Qed.

Lemma hit_count_nil : hit_count [] = 0.
Proof. reflexivity. Qed.

Lemma calls_cons (a : Z) (trace : list Z) (w : World) :
  calls (a :: trace) w =
  (fst (access a w) :: fst (calls trace (snd (access a w))),
   snd (calls trace (snd (access a w)))).
Proof.
  simpl. destruct (access a w) as [o w']. simpl.
  destruct (calls trace w') as [os w'']. reflexivity.
Qed.

Lemma calls_spec (trace : list Z) (s : CacheSimulator) (g : Rng) :
  consistent s ->
  exists os s' g',
    calls trace (s, g) = (os, (s', g')) /\
    consistent s' /\
    capacity s' = capacity s /\ policy s' = policy s /\
    List.length os = List.length trace /\
    hits s' = hits s + hit_count os /\
    hits s' + misses s' = hits s + misses s + Z.of_nat (List.length os) /\
    (resident_count s <= capacity s -> resident_count s' <= capacity s) /\
    (1 <= capacity s -> forallb returned os = true) /\
    (forallb returned os = true ->
     hit_rate_history s' =
       hit_rate_history s ++ running_rates (hits s) (hits s + misses s) os).
Proof.
  revert s g. induction trace as [|a trace IH]; intros s g Hc.
  - exists [], s, g. simpl. rewrite hit_count_nil, app_nil_r.
    split; [reflexivity|]. split; [exact Hc|]. repeat split; auto; lia.
  - destruct (access_step s g a Hc)
      as (o & s1 & g1 & E & Hc1 & Hcap & Hpol & Hh & Hm & Hhist & Hrc & Hexc & _).
    destruct (IH s1 g1 Hc1)
      as (os & s' & g' & E' & Hc' & Hcap' & Hpol' & Hlen & Hh' & Htot & Hrc' & Hret & Hhist').
    exists (o :: os), s', g'. rewrite calls_cons, E. simpl fst. simpl snd. rewrite E'.
    split; [reflexivity|]. split; [exact Hc'|].
    rewrite hit_count_cons. simpl List.length. simpl forallb.
    repeat split; try congruence; try lia.
    + destruct (is_hit o); lia.
    + intros H. apply andb_true_intro. split.
      * destruct (returned o) eqn:Er; [reflexivity|]. specialize (Hexc eq_refl). lia.
      * apply Hret. lia.
    + intros H. apply andb_prop in H. destruct H as [Ho Hos].
      rewrite (Hhist' Hos), Hhist, Ho, <- app_assoc. simpl.
      rewrite get_hit_rate_percent, Hh, Hm.
      replace (hits s + (if is_hit o then 1 else 0) +
               (misses s + (if is_hit o then 0 else 1)))
        with (hits s + misses s + 1) by (destruct (is_hit o); lia).
      reflexivity.
Qed.

Lemma running_rates_length (h n : Z) (os : list (outcome bool)) :
  List.length (running_rates h n os) = List.length os.
Proof.
  revert h n. induction os as [|o os IH]; intros h n; simpl; [reflexivity|].
  now rewrite IH.
Qed.

Lemma running_rates_nth (h n : Z) (os : list (outcome bool)) (i : nat) :
  (i < List.length os)%nat ->
  nth_error (running_rates h n os) i =
  Some (percent (h + hit_count (firstn (S i) os)) (n + Z.of_nat (S i))).
Proof.
  revert h n i. induction os as [|o os IH]; intros h n i Hi; simpl in Hi; [lia|].
  destruct i as [|i].
  - simpl. rewrite hit_count_cons. destruct os; simpl firstn;
      rewrite hit_count_nil, Z.add_0_r; reflexivity.
  - simpl running_rates. simpl nth_error. rewrite IH by lia.
    change (firstn (S (S i)) (o :: os)) with (o :: firstn (S i) os).
    rewrite hit_count_cons. f_equal. f_equal; lia.
Qed.

Lemma running_rates_last (h n : Z) (os : list (outcome bool)) (d : Float.t) :
  os <> [] ->
  last (running_rates h n os) d =
  percent (h + hit_count os) (n + Z.of_nat (List.length os)).
Proof.
  revert h n. induction os as [|o os IH]; intros h n Hne; [congruence|].
  destruct os as [|o' os].
  - simpl. rewrite hit_count_cons, hit_count_nil, Z.add_0_r. reflexivity.
  - change (running_rates h n (o :: o' :: os))
      with (percent (h + (if is_hit o then 1 else 0)) (n + 1)
              :: running_rates (h + (if is_hit o then 1 else 0)) (n + 1) (o' :: os)).
    change (last (?x :: running_rates ?a ?b (o' :: os)) d)
      with (last (running_rates a b (o' :: os)) d).
    rewrite IH by discriminate.
    rewrite (hit_count_cons o). f_equal; [lia|]. simpl List.length. lia.
Qed.

(** ** Floats: zero divided by a positive count *)

Section FloatFacts.
Lemma shr_1_halves (mrs : shr_record) :
  0 <= shr_m mrs -> shr_m (shr_1 mrs) = Z.shiftr (shr_m mrs) 1.
Proof.
  destruct mrs as [m r s]. simpl shr_m. intros Hm. rewrite <- Z.div2_spec.
  destruct m as [|[p|p|]|p]; try reflexivity; lia.
Qed.

Lemma iter_shr_1 (n : positive) :
  forall mrs, 0 <= shr_m mrs ->
              shr_m (iter_pos shr_1 n mrs) = Z.shiftr (shr_m mrs) (Zpos n).
Proof.
  induction n as [n IH|n IH|]; intros mrs Hm; simpl iter_pos.
  - assert (H1 : 0 <= shr_m (shr_1 mrs))
      by (rewrite shr_1_halves by exact Hm; now apply Z.shiftr_nonneg).
    assert (H2 : 0 <= shr_m (iter_pos shr_1 n (shr_1 mrs)))
      by (rewrite IH by exact H1; now apply Z.shiftr_nonneg).
    rewrite IH by exact H2. rewrite IH by exact H1. rewrite shr_1_halves by exact Hm.
    rewrite !Z.shiftr_shiftr by lia. f_equal. lia.
  - assert (H2 : 0 <= shr_m (iter_pos shr_1 n mrs))
      by (rewrite IH by exact Hm; now apply Z.shiftr_nonneg).
    rewrite IH by exact H2. rewrite IH by exact Hm.
    rewrite Z.shiftr_shiftr by lia. f_equal. lia.
  - apply shr_1_halves, Hm.
Qed.

Lemma digits2_lower (p : positive) : 2 ^ (Zpos (digits2_pos p) - 1) <= Zpos p.
Proof.
  induction p as [p IH|p IH|]; simpl digits2_pos.
  - rewrite Pos2Z.inj_succ.
    replace (Z.succ (Zpos (digits2_pos p)) - 1) with (Z.succ (Zpos (digits2_pos p) - 1)) by lia.
    rewrite Z.pow_succ_r by lia. lia.
  - rewrite Pos2Z.inj_succ.
    replace (Z.succ (Zpos (digits2_pos p)) - 1) with (Z.succ (Zpos (digits2_pos p) - 1)) by lia.
    rewrite Z.pow_succ_r by lia. lia.
  - simpl. lia.
Qed.

Lemma shr_record_of_loc_m (m : Z) (l : location) : shr_m (shr_record_of_loc m l) = m.
Proof. destruct l as [|[]]; reflexivity. Qed.

Lemma shr_fexp_positive (p : positive) (e : Z) (l : location) :
  Float.emin <= e ->
  0 < shr_m (fst (shr_fexp Float.prec Float.emax (Zpos p) e l)) /\
  Float.emin <= snd (shr_fexp Float.prec Float.emax (Zpos p) e l).
Proof.
  intros He. unfold shr_fexp, shr.
  destruct (fexp Float.prec Float.emax (Zdigits2 (Zpos p) + e) - e) as [|k|k] eqn:Ek;
    simpl fst; simpl snd.
  - rewrite shr_record_of_loc_m. lia.
  - rewrite iter_shr_1 by (rewrite shr_record_of_loc_m; lia).
    rewrite shr_record_of_loc_m. split; [|lia].
    rewrite Z.shiftr_div_pow2 by lia.
    apply Z.div_str_pos. split; [apply Z.pow_pos_nonneg; lia|].
    pose proof (digits2_lower p) as Hd.
    assert (Hk : Zpos k <= Zpos (digits2_pos p) - 1).
    { unfold fexp in Ek. fold Float.emin in Ek. unfold Float.prec in Ek. simpl Zdigits2 in Ek. lia. }
    eapply Z.le_trans; [|exact Hd]. apply Z.pow_le_mono_r; lia.
  - rewrite shr_record_of_loc_m. lia.
Qed.

Lemma round_nearest_even_positive (m : Z) (l : location) :
  0 < m -> 0 < round_nearest_even m l.
Proof.
  intros Hm. destruct l as [|[]]; simpl; try lia. destruct (Z.even m); lia.
Qed.

(** Rounding a positive mantissa at a representable exponent gives a
    positive finite number or overflows; the sign is kept. *)
Lemma binary_round_aux_positive (sx : bool) (p : positive) (e : Z) (l : location) :
  Float.emin <= e ->
  (exists m e', binary_round_aux Float.prec Float.emax sx (Zpos p) e l = S754_finite sx m e') \/
  binary_round_aux Float.prec Float.emax sx (Zpos p) e l = S754_infinity sx.
Proof.
  intros He. unfold binary_round_aux.
  destruct (shr_fexp_positive p e l He) as [H1 H2].
  destruct (shr_fexp Float.prec Float.emax (Zpos p) e l) as [mrs1 e1].
  simpl fst in H1. simpl snd in H2.
  pose proof (round_nearest_even_positive (shr_m mrs1) (loc_of_shr_record mrs1) H1) as Hr.
  destruct (round_nearest_even (shr_m mrs1) (loc_of_shr_record mrs1)) as [|q|q]; try lia.
  destruct (shr_fexp_positive q e1 loc_Exact H2) as [H3 _].
  destruct (shr_fexp Float.prec Float.emax (Zpos q) e1 loc_Exact) as [mrs2 e2].
  simpl fst in H3.
  destruct (shr_m mrs2) as [|m|m]; try lia.
  destruct (e2 <=? Float.emax - Float.prec); [left; eauto|right; reflexivity].
Qed.

Lemma of_int_positive (p : positive) :
  (exists m e, Float.of_int (Zpos p) = S754_finite false m e) \/
  Float.of_int (Zpos p) = S754_infinity false.
Proof.
  unfold Float.of_int, binary_normalize, binary_round, shl_align.
  destruct (fexp Float.prec Float.emax (Zpos (digits2_pos p) + 0) - 0) as [|d|d] eqn:Ed.
  - apply binary_round_aux_positive. now vm_compute.
  - apply binary_round_aux_positive. now vm_compute.
  - apply binary_round_aux_positive. unfold fexp. fold Float.emin. lia.
Qed.

Lemma zero_percent (n : Z) : percent 0 n = Float.zero.
Proof.
  unfold percent. destruct (Z.gtb_spec n 0) as [Hn|]; [|reflexivity].
  destruct n as [|p|p]; try lia.
  unfold Float.int_truediv.
  destruct (of_int_positive p) as [(m & e & ->)| ->]; reflexivity.
Qed.
End FloatFacts.

(** ** Runs on addresses that are all new *)

Lemma range_NoDup (n : Z) : NoDup (range n).
Proof.
  unfold range. generalize (seq_NoDup (Z.to_nat n) 0).
  induction 1 as [|x l Hx Hnd IH]; simpl; constructor; [|exact IH].
  rewrite in_map_iff. intros (y & Hy & Hin).
  apply Nat2Z.inj in Hy. subst y. contradiction.
Qed.

Lemma range_length (n : Z) : List.length (range n) = Z.to_nat n.
Proof. unfold range. now rewrite length_map, length_seq. Qed.

Lemma calls_new_addresses (l : list Z) :
  forall (s : CacheSimulator) (g : Rng),
    consistent s -> NoDup (keys (cache s) ++ l) ->
    resident_count s + Z.of_nat (List.length l) <= capacity s ->
    exists s' g',
      calls l (s, g) = (map (fun _ => Ret false) l, (s', g')) /\
      hits s' = hits s /\
      hits s' + misses s' = hits s + misses s + Z.of_nat (List.length l) /\
      keys (cache s') = keys (cache s) ++ l.
Proof.
  induction l as [|a l IH]; intros s g Hc Hnd Hcap.
  - exists s, g. simpl. rewrite app_nil_r. repeat split; lia.
  - simpl List.length in Hcap.
    assert (Ha : resident a s = false).
    { apply dict_contains_false. intros H. apply NoDup_remove_2 in Hnd.
      apply Hnd. apply in_or_app. now left. }
    destruct (access_step s g a Hc)
      as (o & s1 & g1 & E & Hc1 & Hcap1 & _ & Hh & Hm & _ & _ & _ & Hnew).
    destruct (Hnew Ha ltac:(lia)) as [-> Hk].
    assert (Hrc : resident_count s1 = resident_count s + 1).
    { unfold resident_count. rewrite <- !keys_length, Hk, length_app. simpl. lia. }
    destruct (IH s1 g1 Hc1) as (s' & g' & E' & Hh' & Ht' & Hk').
    + rewrite Hk, <- app_assoc. exact Hnd.
    + lia.
    + exists s', g'. rewrite calls_cons, E. simpl fst. simpl snd. rewrite E'.
      simpl in Hh, Hm. simpl List.length.
      rewrite Hk', Hk, <- app_assoc. repeat split; lia.
Qed.

(** The loop [for addr in pattern: sim.access(addr)] and the caller that
    keeps the outcomes agree as long as no call raises. *)
Lemma run_calls (trace : list Z) :
  forall w, forallb returned (fst (calls trace w)) = true ->
            run trace w = (Ret tt, snd (calls trace w)).
Proof.
  induction trace as [|a trace IH]; intros w H; [reflexivity|].
  rewrite calls_cons in *. simpl fst in H. simpl snd. simpl forallb in H.
  apply andb_prop in H. destruct H as [Ho Hos].
  simpl run. unfold bind at 1.
  destruct (access a w) as [[b|e] w']; [|discriminate].
  simpl in *. now apply IH.
Qed.

(** On an empty cache whose capacity is not positive every call raises,
    and the cache stays empty. *)
Lemma calls_without_room (trace : list Z) :
  forall (s : CacheSimulator) (g : Rng),
    consistent s -> capacity s <= 0 -> cache s = [] ->
    forallb (fun o => negb (returned o)) (fst (calls trace (s, g))) = true /\
    cache (fst (snd (calls trace (s, g)))) = [].
Proof.
  induction trace as [|a trace IH]; intros s g Hc Hcap He; [now split|].
  assert (Hr : resident a s = false) by (unfold resident; now rewrite He).
  destruct (count_miss_fields a s) as (Hc1 & Ec & Ecap & _).
  destruct (update_on_miss_empty (count_miss a s) g a (Hc1 Hc)) as (e & E);
    [lia|congruence|].
  rewrite calls_cons, (access_miss_unfold s g a Hr), E. simpl fst. simpl snd.
  destruct (IH (count_miss a s) g (Hc1 Hc)) as [H1 H2]; [lia|congruence|].
  simpl forallb. now rewrite H1.
Qed.

(** Membership in a dictionary only depends on its keys. *)
Lemma dict_contains_same_keys {V W : Type} (k : Z) (d : dict V) (d' : dict W) :
  (In k (keys d') <-> In k (keys d)) -> dict_contains k d' = dict_contains k d.
Proof.
  intros H. destruct (dict_contains k d) eqn:E.
  - apply dict_contains_In. apply H. now apply dict_contains_In.
  - apply dict_contains_false. rewrite H. now apply dict_contains_false.
Qed.

Lemma In_move_last (a x : Z) (l : list Z) :
  In a l -> (In x (remove_first a l ++ [a]) <-> In x l).
Proof.
  intros Ha. rewrite in_app_iff. simpl. split.
  - intros [H|[<-|[]]]; [eapply remove_first_incl; eauto|exact Ha].
  - intros H. destruct (Z.eq_dec x a) as [->|Hne]; [right; now left|].
    left. now apply remove_first_keeps.
Qed.

(** * The claims *)

(** C1. Capacity invariant: for every trace, policy, source of randomness
    and non-negative capacity, after every call of [access] (that is, after
    every prefix of the trace, whether the calls returned or raised) the
    number of resident blocks is at most the capacity. *)
Theorem capacity_invariant
  (c : Z) (p : ReplacementPolicy) (g : Rng) (trace : list Z) (k : nat) :
  0 <= c ->
  resident_count (fst (snd (calls (firstn k trace) (fresh c p, g)))) <= c.
Proof.
  intros Hc.
  destruct (calls_spec (firstn k trace) (fresh c p) g (consistent_fresh c p))
    as (os & s' & g' & E & _ & _ & _ & _ & _ & _ & Hrc & _).
  rewrite E. simpl. apply Hrc. exact Hc.
Qed.

Lemma capacity_invariant_witness :
  0 <= 2 /\
  resident_count (fst (snd (calls (firstn 5 [1; 2; 3; 1; 4; 5]) (fresh 2 RANDOM, zeros)))) <= 2.
Proof.
  split; [lia|]. apply (capacity_invariant 2 RANDOM zeros [1; 2; 3; 1; 4; 5] 5). lia.
Defined.

(** C2. With capacity 0 the claim wants every call to return a miss.  The
    code instead raises on the very first call, under each policy: the test
    [len(self.cache) >= self.capacity] is [0 >= 0], so [_evict] runs on the
    empty cache.  The miss has been counted by then, nothing is resident
    and the history is not extended. *)
Theorem capacity_zero_access_raises (a : Z) (g : Rng) :
  access a (fresh 0 LRU, g) = (Exc StopIteration, (count_miss a (fresh 0 LRU), g)) /\
  access a (fresh 0 FIFO, g) = (Exc IndexError, (count_miss a (fresh 0 FIFO), g)) /\
  access a (fresh 0 LFU, g) = (Exc ValueError, (count_miss a (fresh 0 LFU), g)) /\
  access a (fresh 0 RANDOM, g) = (Exc IndexError, (count_miss a (fresh 0 RANDOM), g)).
Proof. repeat split. Qed.

(** C3, as the code has it: the constructor checks nothing, so it returns
    for every integer capacity, negative ones included, and every policy;
    the new object has the given capacity and policy, no resident block
    and no recorded access. *)
Theorem init_always_returns (c : Z) (p : ReplacementPolicy) :
  exists s, __init__ c p = Ret s /\
            capacity s = c /\ policy s = p /\ resident_count s = 0 /\
            hits s = 0 /\ misses s = 0 /\ hit_rate_history s = [].
Proof. exists (fresh c p). repeat split. Qed.

(** C3 as stated fails: capacity -1 is accepted. *)
Lemma negative_capacity_accepted :
  ~ (exists e, __init__ (-1) LRU = Exc e).
Proof. intros [e H]. discriminate H. Qed.

(** C4. [access] returns [True] exactly when the address is resident just
    before the call, from any state of the object; and when it returns
    [True] the same addresses are resident afterwards, and as many. *)
Theorem access_hit_iff_resident (s : CacheSimulator) (g : Rng) (a : Z) :
  (fst (access a (s, g)) = Ret true <-> resident a s = true) /\
  (fst (access a (s, g)) = Ret true ->
   (forall x, resident x (fst (snd (access a (s, g)))) = resident x s) /\
   resident_count (fst (snd (access a (s, g)))) = resident_count s).
Proof.
  destruct (resident a s) eqn:Hr.
  - destruct (access_hit s g a Hr) as (s' & E & _ & _ & _ & _ & _ & Hk & _).
    rewrite E. simpl fst. simpl snd. split; [tauto|]. intros _.
    apply dict_contains_In in Hr.
    split.
    + intros x. unfold resident. apply dict_contains_same_keys. rewrite Hk.
      destruct (policy s); try tauto. now apply In_move_last.
    + unfold resident_count. rewrite <- !keys_length, Hk.
      destruct (policy s); try reflexivity.
      rewrite length_app. simpl.
      rewrite <- (remove_first_length a (keys (cache s)) Hr). lia.
  - rewrite (access_miss_unfold s g a Hr).
    destruct (_update_on_miss a (count_miss a s, g)) as [[[]|e] [s2 g2]]; simpl;
      split; try (split; discriminate); discriminate.
Qed.

Lemma access_hit_iff_resident_witness :
  let s := fst (snd (calls [1; 2] (fresh 2 LRU, zeros))) in
  fst (access 1 (s, zeros)) = Ret true /\
  (forall x, resident x (fst (snd (access 1 (s, zeros)))) = resident x s) /\
  resident_count (fst (snd (access 1 (s, zeros)))) = resident_count s.
Proof.
  intros s. split; [reflexivity|].
  apply (access_hit_iff_resident s zeros 1). reflexivity.
Defined.

(** C5, as the code has it.  For [n] calls of [access] on a new object that
    all return, [h] of them hits: the counters are [h] and [n]; the hit
    rate is the double [h / n * 100], the quotient rounded first and the
    product after, and 0.0 for [n = 0]; the history has [n] elements; for
    [n > 0] its last element is the hit rate; its element [i] is the same
    formula on the hits among the first [i + 1] calls and on [i + 1]. *)
Theorem hit_rate_of_returning_calls
  (c : Z) (p : ReplacementPolicy) (g : Rng) (trace : list Z) :
  let os := fst (calls trace (fresh c p, g)) in
  let s := fst (snd (calls trace (fresh c p, g))) in
  let n := List.length trace in
  forallb returned os = true ->
  Stats.hits (get_statistics s) = hit_count os /\
  Stats.total_accesses (get_statistics s) = Z.of_nat n /\
  Stats.hit_rate (get_statistics s) = percent (hit_count os) (Z.of_nat n) /\
  List.length (hit_rate_history s) = n /\
  (trace <> [] ->
   last (hit_rate_history s) Float.zero = Stats.hit_rate (get_statistics s)) /\
  (forall i, (i < n)%nat ->
             nth_error (hit_rate_history s) i =
             Some (percent (hit_count (firstn (S i) os)) (Z.of_nat (S i)))).
Proof.
  destruct (calls_spec trace (fresh c p) g (consistent_fresh c p))
    as (os & s & g' & E & _ & _ & _ & Hlen & Hh & Htot & _ & _ & Hhist).
  cbv zeta. rewrite E. simpl fst. simpl snd. intros Hret.
  specialize (Hhist Hret). simpl in Hh, Htot, Hhist.
  unfold get_statistics. simpl Stats.hits. simpl Stats.total_accesses.
  simpl Stats.hit_rate. rewrite get_hit_rate_percent, Htot, Hh, Hhist, Hlen.
  repeat split.
  - now rewrite running_rates_length.
  - intros Hne. rewrite running_rates_last, Hlen; [reflexivity|].
    intros ->. destruct trace; [congruence|discriminate].
  - intros i Hi. rewrite running_rates_nth by lia. reflexivity.
Qed.

Lemma hit_rate_of_returning_calls_witness :
  let os := fst (calls [1; 2; 1; 3] (fresh 2 LRU, zeros)) in
  let s := fst (snd (calls [1; 2; 1; 3] (fresh 2 LRU, zeros))) in
  forallb returned os = true /\
  Stats.hits (get_statistics s) = hit_count os /\
  Stats.total_accesses (get_statistics s) = 4 /\
  Stats.hit_rate (get_statistics s) = percent (hit_count os) 4 /\
  List.length (hit_rate_history s) = 4%nat /\
  ([1; 2; 1; 3] <> [] ->
   last (hit_rate_history s) Float.zero = Stats.hit_rate (get_statistics s)) /\
  (forall i, (i < 4)%nat ->
             nth_error (hit_rate_history s) i =
             Some (percent (hit_count (firstn (S i) os)) (Z.of_nat (S i)))).
Proof.
  intros os s. split; [reflexivity|].
  apply (hit_rate_of_returning_calls 2 LRU zeros [1; 2; 1; 3]). reflexivity.
Defined.

(** C5 as stated fails twice.  After the calls 1, 2, 1 on a cache of
    capacity 2 there is one hit in three calls, and the hit rate, 1/3*100,
    is not the double 100*1/3 ([==] on the two is false).  And a call that
    raises (capacity 0) is counted but adds nothing to the history. *)
Lemma hit_rate_formula_counterexample :
  (let os := fst (calls [1; 2; 1] (fresh 2 LRU, zeros)) in
   let s := fst (snd (calls [1; 2; 1] (fresh 2 LRU, zeros))) in
   os = [Ret false; Ret false; Ret true] /\
   Stats.hit_rate (get_statistics s) = S754_finite false 4691249611844266 (-47) /\
   spec_percent 1 3 = S754_finite false 4691249611844267 (-47) /\
   SFeqb (Stats.hit_rate (get_statistics s)) (spec_percent 1 3) = false) /\
  (let os := fst (calls [7] (fresh 0 LRU, zeros)) in
   let s := fst (snd (calls [7] (fresh 0 LRU, zeros))) in
   List.length os = 1%nat /\
   Stats.total_accesses (get_statistics s) = 1 /\
   List.length (hit_rate_history s) = 0%nat).
Proof. vm_compute. repeat split. Qed.

(** A capacity of at least 1 is enough for every call to return. *)
Lemma calls_return (c : Z) (p : ReplacementPolicy) (g : Rng) (trace : list Z) :
  1 <= c -> forallb returned (fst (calls trace (fresh c p, g))) = true.
Proof.
  intros Hc.
  destruct (calls_spec trace (fresh c p) g (consistent_fresh c p))
    as (os & s & g' & E & _ & _ & _ & _ & _ & _ & _ & Hret & _).
  rewrite E. apply Hret. exact Hc.
Qed.

(** C6. FIFO, capacity 2, trace 1, 2, 1, 3: the third call is a hit on 1,
    and still the fourth call evicts 1, the head of the queue; 2 and 3 are
    resident at the end.  No randomness is involved. *)
Theorem fifo_evicts_oldest_despite_hit (g : Rng) :
  let before := fst (snd (calls [1; 2; 1] (fresh 2 FIFO, g))) in
  let after := fst (snd (calls [1; 2; 1; 3] (fresh 2 FIFO, g))) in
  fst (calls [1; 2; 1; 3] (fresh 2 FIFO, g)) = [Ret false; Ret false; Ret true; Ret false] /\
  keys (cache before) = [1; 2] /\ fifo_queue before = [1; 2] /\
  after = fst (snd (access 3 (before, g))) /\
  resident 1 after = false /\
  keys (cache after) = [2; 3] /\ fifo_queue after = [2; 3].
Proof. intros before after. repeat apply conj; vm_compute; reflexivity. Qed.

(** C7. LFU, capacity 2, trace 1, 2, 1, 3: before the fourth call 1 has
    frequency 2 and 2 has frequency 1; the call evicts 2; 1 and 3 are
    resident at the end.  No randomness is involved. *)
Theorem lfu_evicts_least_frequent (g : Rng) :
  let before := fst (snd (calls [1; 2; 1] (fresh 2 LFU, g))) in
  let after := fst (snd (calls [1; 2; 1; 3] (fresh 2 LFU, g))) in
  fst (calls [1; 2; 1; 3] (fresh 2 LFU, g)) = [Ret false; Ret false; Ret true; Ret false] /\
  keys (cache before) = [1; 2] /\ frequency before = [(1, 2); (2, 1)] /\
  after = fst (snd (access 3 (before, g))) /\
  resident 2 after = false /\
  keys (cache after) = [1; 3] /\ frequency after = [(1, 2); (3, 1)].
Proof. intros before after. repeat apply conj; vm_compute; reflexivity. Qed.

(** C8. The sequential pattern of length [n] on a new cache of capacity at
    least [n]: every call returns a miss and the final hit rate is 0.0,
    under every policy and whatever the sources of randomness. *)
Theorem sequential_all_misses
  (n c : Z) (p : ReplacementPolicy) (g g' : Rng) :
  n <= c ->
  let pattern := fst (generate_access_pattern "sequential" n g') in
  pattern = range n /\
  fst (calls pattern (fresh c p, g)) = map (fun _ => Ret false) pattern /\
  get_hit_rate (fst (snd (calls pattern (fresh c p, g)))) = Float.zero.
Proof.
  intros Hn. simpl. split; [reflexivity|].
  destruct (Z.leb_spec n 0) as [Hneg|Hpos].
  { unfold range. replace (Z.to_nat n) with O by lia. split; reflexivity. }
  destruct (calls_new_addresses (range n) (fresh c p) g (consistent_fresh c p))
    as (s' & g1 & E & Hh & Ht & _).
  - simpl. apply range_NoDup.
  - unfold resident_count. simpl. rewrite range_length. lia.
  - rewrite E. simpl fst. simpl snd. split; [reflexivity|].
    rewrite get_hit_rate_percent, Hh. simpl hits. apply zero_percent.
Qed.

Lemma sequential_all_misses_witness :
  3 <= 5 /\
  let pattern := fst (generate_access_pattern "sequential" 3 zeros) in
  pattern = range 3 /\
  fst (calls pattern (fresh 5 LFU, zeros)) = map (fun _ => Ret false) pattern /\
  get_hit_rate (fst (snd (calls pattern (fresh 5 LFU, zeros)))) = Float.zero.
Proof.
  split; [lia|]. apply (sequential_all_misses 3 5 LFU zeros zeros). lia.
Defined.

(** C9. The stride pattern of length 5 is 0, 4, 8, 12, 16 whatever the
    source of randomness; for every length the pattern is the same under
    any two sources, and the source is left as it was. *)
Theorem stride_deterministic (g1 g2 : Rng) (length : Z) :
  fst (generate_access_pattern "stride" 5 g1) = [0; 4; 8; 12; 16] /\
  fst (generate_access_pattern "stride" length g1) =
    fst (generate_access_pattern "stride" length g2) /\
  fst (generate_access_pattern "stride" length g1) = map (fun i => i * 4) (range length) /\
  snd (generate_access_pattern "stride" length g1) = g1.
Proof. repeat split. Qed.

(** C10. With no access counted the snapshot has hit rate 0.0 and miss
    rate 100.0; and in every state the miss rate is 100 minus the hit
    rate, not a function of the miss count alone. *)
Theorem empty_statistics (s : CacheSimulator) :
  hits s + misses s = 0 ->
  Stats.hit_rate (get_statistics s) = Float.zero /\
  Stats.miss_rate (get_statistics s) = Float.of_int 100 /\
  Float.of_int 100 = S754_finite false 7036874417766400 (-46) /\
  forall s', Stats.miss_rate (get_statistics s') =
             Float.sub (Float.of_int 100) (Stats.hit_rate (get_statistics s')).
Proof.
  intros H. unfold get_statistics. simpl Stats.hit_rate. simpl Stats.miss_rate.
  unfold get_hit_rate. cbv zeta. rewrite H. repeat split.
Qed.

Lemma empty_statistics_witness :
  hits (fresh 4 LRU) + misses (fresh 4 LRU) = 0 /\
  Stats.hit_rate (get_statistics (fresh 4 LRU)) = Float.zero /\
  Stats.miss_rate (get_statistics (fresh 4 LRU)) = Float.of_int 100 /\
  Float.of_int 100 = S754_finite false 7036874417766400 (-46) /\
  forall s', Stats.miss_rate (get_statistics s') =
             Float.sub (Float.of_int 100) (Stats.hit_rate (get_statistics s')).
Proof.
  split; [reflexivity|]. apply (empty_statistics (fresh 4 LRU)). reflexivity.
Defined.

(** * Further properties *)

(** ** The methods, case by case *)

Lemma evict_exact (s : CacheSimulator) (g : Rng) :
  consistent s -> cache s <> [] ->
  exists s',
    _evict (s, g) = (Ret tt, (s', rng_after_evict (policy s) g)) /\
    In (victim s g) (keys (cache s)) /\
    keys (cache s') = remove_first (victim s g) (keys (cache s)) /\
    frequency s' = match policy s with
                   | LFU => dict_remove (victim s g) (frequency s)
                   | _ => frequency s
                   end /\
    consistent s' /\ same_stats s s'.
Proof.
  destruct s as [cap pol c f q h m acc hist].
  unfold consistent, same_stats, victim; fields. intros (Hnd & Hq & Hf) Hne.
  destruct pol; unfold rng_after_evict.
  - destruct c as [|[k v] t]; [congruence|].
    eexists.
    unfold _evict, del_cache, dict_delitem, dict_contains, dict_first. unfold_monad.
    simpl. rewrite Z.eqb_refl. split; [reflexivity|]. fields. simpl.
    rewrite ?Z.eqb_refl. inversion Hnd; subst.
    repeat split; auto; discriminate.
  - destruct c as [|[k v] t]; [congruence|].
    rewrite (Hq eq_refl). eexists.
    unfold _evict, fifo_popleft, del_cache, dict_delitem, dict_contains. unfold_monad.
    simpl. rewrite Z.eqb_refl. split; [reflexivity|]. fields. simpl.
    rewrite ?Z.eqb_refl. inversion Hnd; subst.
    repeat split; auto; discriminate.
  - specialize (Hf eq_refl).
    destruct f as [|e t]; [destruct c; [congruence|discriminate]|].
    pose proof (min_scan_In e t) as Hin. rewrite Hf in Hin.
    eexists.
    unfold _evict, del_cache, del_frequency, dict_delitem, dict_min_by_value. unfold_monad.
    assert (Hc : dict_contains (min_scan e t) c = true) by now apply dict_contains_In.
    assert (Hfc : dict_contains (min_scan e t) (e :: t) = true)
      by (apply dict_contains_In; now rewrite Hf).
    rewrite Hc. fields. rewrite Hfc. split; [reflexivity|]. fields.
    rewrite !keys_remove. rewrite Hf.
    repeat split; auto; try discriminate.
    apply remove_first_NoDup, Hnd.
  - destruct (keys c) as [|k0 ks] eqn:Hk; [destruct c; [congruence|discriminate]|].
    set (x := nth (Z.to_nat (Z.of_N (g O) mod Z.of_nat (List.length (k0 :: ks)))) (k0 :: ks) 0).
    assert (Hin : In x (keys c)) by (rewrite Hk; apply choice_In).
    eexists.
    unfold _evict, choice, randbelow, del_cache, dict_delitem. unfold_monad.
    rewrite Hk. unfold_monad. fold x.
    assert (Hc : dict_contains x c = true) by now apply dict_contains_In.
    rewrite Hc. split; [reflexivity|]. fields.
    rewrite keys_remove, Hk. rewrite Hk in Hin.
    repeat split; auto; try discriminate.
    apply remove_first_NoDup, Hnd.
Qed.

Lemma insert_block_frequency (s : CacheSimulator) (g : Rng) (a : Z) :
  frequency (fst (snd (insert_block a (s, g)))) =
  match policy s with
  | LFU => dict_setitem a 1 (frequency s)
  | _ => frequency s
  end.
Proof.
  destruct s as [cap pol c f q h m acc hist].
  destruct pol; unfold insert_block, cache_move_to_end, move_to_end; unfold_monad;
    try reflexivity.
  now rewrite dict_get_setitem.
Qed.

Lemma victim_count_miss (a : Z) (s : CacheSimulator) (g : Rng) :
  victim (count_miss a s) g = victim s g /\
  frequency (count_miss a s) = frequency s /\
  fifo_queue (count_miss a s) = fifo_queue s /\
  accesses (count_miss a s) = accesses s ++ [a].
Proof. destruct s. repeat split. Qed.

Lemma log_rate_more (s : CacheSimulator) :
  frequency (log_rate s) = frequency s /\
  fifo_queue (log_rate s) = fifo_queue s /\
  accesses (log_rate s) = accesses s.
Proof. destruct s. repeat split. Qed.

(** A miss when the cache is at capacity and not empty: the victim goes,
    the address comes last, and only RANDOM uses a draw. *)
Lemma access_miss_full (s : CacheSimulator) (g : Rng) (a : Z) :
  consistent s -> resident a s = false ->
  capacity s <= resident_count s -> cache s <> [] ->
  exists s',
    access a (s, g) = (Ret false, (s', rng_after_evict (policy s) g)) /\
    In (victim s g) (keys (cache s)) /\
    keys (cache s') = remove_first (victim s g) (keys (cache s)) ++ [a] /\
    frequency s' = match policy s with
                   | LFU => dict_setitem a 1 (dict_remove (victim s g) (frequency s))
                   | _ => frequency s
                   end /\
    accesses s' = accesses s ++ [a] /\
    consistent s'.
Proof.
  intros Hc Hr Hge Hne. rewrite (access_miss_unfold s g a Hr).
  destruct (count_miss_fields a s) as (Hc1 & Ec & Ecap & Epol & _).
  destruct (victim_count_miss a s g) as (Ev & Ef & _ & Eacc).
  specialize (Hc1 Hc). unfold resident_count in Hge.
  rewrite <- Ev, <- Ef, <- Eacc, <- Ec, <- Epol. rewrite <- Ec, <- Ecap in Hge.
  rewrite <- Ec in Hne.
  assert (Ha : ~ In a (keys (cache (count_miss a s))))
    by (rewrite Ec; apply dict_contains_false; exact Hr).
  set (s1 := count_miss a s) in *. clearbody s1.
  destruct (evict_exact s1 g Hc1 Hne) as (s2 & E2 & Hv & Hk2 & Hf2 & Hc2 & Hs2).
  assert (Ha2 : ~ In a (keys (cache s2))).
  { rewrite Hk2. intros H. apply Ha. eapply remove_first_incl; eauto. }
  destruct (insert_block_absent s2 (rng_after_evict (policy s1) g) a Hc2 Ha2)
    as (s3 & E3 & Hk3 & Hc3 & Hs3).
  pose proof (insert_block_frequency s2 (rng_after_evict (policy s1) g) a) as Hf3.
  rewrite E3 in Hf3. simpl fst in Hf3. simpl snd in Hf3.
  destruct Hs2 as (_ & P2 & _ & _ & A2 & _). destruct Hs3 as (_ & _ & _ & _ & A3 & _).
  destruct (log_rate_fields s3) as (L0 & L1 & _).
  destruct (log_rate_more s3) as (M1 & _ & M3).
  exists (log_rate s3). split.
  - rewrite update_on_miss_unfold. unfold bind at 1 2, get_self. fields.
    destruct (Z.geb_spec (Z.of_nat (List.length (cache s1))) (capacity s1)); [|lia].
    rewrite E2, E3. reflexivity.
  - rewrite L1, M1, M3, Hk3, Hk2, Hf3, P2, Hf2, A3, A2.
    split; [exact Hv|]. split; [reflexivity|].
    split; [destruct (policy s1); reflexivity|].
    split; [reflexivity|exact (L0 Hc3)].
Qed.

(** A miss while there is room. *)
Lemma access_miss_room (s : CacheSimulator) (g : Rng) (a : Z) :
  consistent s -> resident a s = false -> resident_count s < capacity s ->
  exists s',
    access a (s, g) = (Ret false, (s', g)) /\
    keys (cache s') = keys (cache s) ++ [a] /\
    frequency s' = match policy s with
                   | LFU => dict_setitem a 1 (frequency s)
                   | _ => frequency s
                   end /\
    accesses s' = accesses s ++ [a] /\
    consistent s'.
Proof.
  intros Hc Hr Hlt. rewrite (access_miss_unfold s g a Hr).
  destruct (count_miss_fields a s) as (Hc1 & Ec & Ecap & Epol & _).
  destruct (victim_count_miss a s g) as (_ & Ef & _ & Eacc).
  specialize (Hc1 Hc). unfold resident_count in Hlt.
  rewrite <- Ef, <- Eacc, <- Ec, <- Epol. rewrite <- Ec, <- Ecap in Hlt.
  assert (Ha : ~ In a (keys (cache (count_miss a s))))
    by (rewrite Ec; apply dict_contains_false; exact Hr).
  set (s1 := count_miss a s) in *. clearbody s1.
  destruct (insert_block_absent s1 g a Hc1 Ha) as (s3 & E3 & Hk3 & Hc3 & Hs3).
  pose proof (insert_block_frequency s1 g a) as Hf3.
  rewrite E3 in Hf3. simpl fst in Hf3. simpl snd in Hf3.
  destruct Hs3 as (_ & _ & _ & _ & A3 & _).
  destruct (log_rate_fields s3) as (L0 & L1 & _).
  destruct (log_rate_more s3) as (M1 & _ & M3).
  exists (log_rate s3). split.
  - rewrite update_on_miss_unfold. unfold bind at 1 2, get_self. fields.
    destruct (Z.geb_spec (Z.of_nat (List.length (cache s1))) (capacity s1)); [lia|].
    unfold ret at 1. rewrite E3. reflexivity.
  - rewrite L1, M1, M3, Hk3, Hf3, A3.
    split; [reflexivity|]. split; [reflexivity|].
    split; [reflexivity|exact (L0 Hc3)].
Qed.

(** A miss on an empty cache whose capacity is not positive. *)
Lemma access_miss_empty (s : CacheSimulator) (g : Rng) (a : Z) :
  consistent s -> capacity s <= 0 -> cache s = [] ->
  exists e, access a (s, g) = (Exc e, (count_miss a s, g)).
Proof.
  intros Hc Hcap He.
  assert (Hr : resident a s = false) by (unfold resident; now rewrite He).
  destruct (count_miss_fields a s) as (Hc1 & Ec & Ecap & _).
  destruct (update_on_miss_empty (count_miss a s) g a (Hc1 Hc)) as (e & E);
    [lia|congruence|].
  exists e. now rewrite (access_miss_unfold s g a Hr), E.
Qed.

(** A hit, in full. *)
Lemma access_hit_detail (s : CacheSimulator) (g : Rng) (a : Z) :
  resident a s = true ->
  exists s',
    access a (s, g) = (Ret true, (s', g)) /\
    keys (cache s') = match policy s with
                      | LRU => remove_first a (keys (cache s)) ++ [a]
                      | _ => keys (cache s)
                      end /\
    frequency s' = match policy s with
                   | LFU => dict_setitem a
                              (match dict_get a (frequency s) with
                               | Some n => n
                               | None => 0
                               end + 1) (frequency s)
                   | _ => frequency s
                   end /\
    fifo_queue s' = fifo_queue s /\
    accesses s' = accesses s ++ [a].
Proof.
  destruct s as [cap pol c f q h m acc hist]. unfold resident; fields. intros Hr.
  unfold access. unfold_monad. rewrite Hr.
  destruct pol;
    unfold _update_on_hit, record_hit_rate, cache_move_to_end, move_to_end; unfold_monad.
  - unfold dict_contains in Hr. destruct (dict_get a c) as [v|] eqn:E; [|discriminate].
    eexists. split; [reflexivity|]. fields.
    rewrite keys_app, keys_remove. repeat split; reflexivity.
  - eexists. split; [reflexivity|]. fields. repeat split; reflexivity.
  - eexists. split; [reflexivity|]. fields. repeat split; reflexivity.
  - eexists. split; [reflexivity|]. fields. repeat split; reflexivity.
Qed.

(** With a capacity of at least 1, on a consistent object, [access] is a
    total function of the state: the lemma gives its result in full. *)
Lemma access_with_capacity (s : CacheSimulator) (g : Rng) (a : Z) :
  consistent s -> 1 <= capacity s ->
  exists s' g',
    access a (s, g) = (Ret (resident a s), (s', g')) /\
    consistent s' /\
    keys (cache s') =
      (if resident a s
       then match policy s with
            | LRU => remove_first a (keys (cache s)) ++ [a]
            | _ => keys (cache s)
            end
       else if resident_count s <? capacity s
            then keys (cache s) ++ [a]
            else remove_first (victim s g) (keys (cache s)) ++ [a]) /\
    g' = (if resident a s then g
          else if resident_count s <? capacity s then g
               else rng_after_evict (policy s) g) /\
    frequency s' =
      match policy s with
      | LFU =>
          if resident a s
          then dict_setitem a
                 (match dict_get a (frequency s) with Some n => n | None => 0 end + 1)
                 (frequency s)
          else if resident_count s <? capacity s
               then dict_setitem a 1 (frequency s)
               else dict_setitem a 1 (dict_remove (victim s g) (frequency s))
      | _ => frequency s
      end /\
    accesses s' = accesses s ++ [a] /\
    (resident a s = false -> capacity s <= resident_count s ->
     In (victim s g) (keys (cache s))).
Proof.
  intros Hc Hcap. destruct (resident a s) eqn:Hr.
  - destruct (access_hit_detail s g a Hr) as (s' & E & Hk & Hf & Hq & Hacc).
    destruct (access_step s g a Hc) as (o & s1 & g1 & E1 & Hc1 & _).
    rewrite E in E1. inversion E1; subst o s1 g1.
    exists s', g. split; [exact E|]. split; [exact Hc1|]. split; [exact Hk|].
    split; [reflexivity|]. split; [rewrite Hf; destruct (policy s); reflexivity|].
    split; [exact Hacc|discriminate].
  - destruct (Z.ltb_spec (resident_count s) (capacity s)) as [Hlt|Hge].
    + destruct (access_miss_room s g a Hc Hr Hlt) as (s' & E & Hk & Hf & Hacc & Hc').
      exists s', g. split; [exact E|]. split; [exact Hc'|]. split; [exact Hk|].
      split; [reflexivity|]. split; [rewrite Hf; destruct (policy s); reflexivity|].
      split; [exact Hacc|lia].
    + assert (Hne : cache s <> []).
      { unfold resident_count in Hge. destruct (cache s); [simpl in Hge; lia|discriminate]. }
      destruct (access_miss_full s g a Hc Hr Hge Hne) as (s' & E & Hv & Hk & Hf & Hacc & Hc').
      exists s', (rng_after_evict (policy s) g).
      split; [exact E|]. split; [exact Hc'|]. split; [exact Hk|].
      split; [reflexivity|]. split; [rewrite Hf; destruct (policy s); reflexivity|].
      split; [exact Hacc|intros _ _; exact Hv].
Qed.

(** ** States that calls on a new object reach *)

Lemma calls_app (l1 l2 : list Z) (w : World) :
  calls (l1 ++ l2) w =
  (fst (calls l1 w) ++ fst (calls l2 (snd (calls l1 w))),
   snd (calls l2 (snd (calls l1 w)))).
Proof.
  revert w. induction l1 as [|a l1 IH]; intros w.
  - simpl. now destruct (calls l2 w).
  - rewrite <- app_comm_cons, !calls_cons, IH. reflexivity.
Qed.

Lemma after_snoc (trace : list Z) (a : Z) (c : Z) (p : ReplacementPolicy) (g : Rng) :
  after (trace ++ [a]) c p g = snd (access a (after trace c p g)).
Proof.
  unfold after. rewrite calls_app. simpl snd.
  destruct (access a (snd (calls trace (fresh c p, g)))) as [o w]. reflexivity.
Qed.

Lemma after_facts (trace : list Z) (c : Z) (p : ReplacementPolicy) (g : Rng) :
  consistent (fst (after trace c p g)) /\
  capacity (fst (after trace c p g)) = c /\
  policy (fst (after trace c p g)) = p /\
  (0 <= c -> resident_count (fst (after trace c p g)) <= c).
Proof.
  unfold after.
  destruct (calls_spec trace (fresh c p) g (consistent_fresh c p))
    as (os & s & g' & E & Hc & Hcap & Hpol & _ & _ & _ & Hrc & _).
  rewrite E. simpl. auto.
Qed.

Lemma world_eta (w : World) : w = (fst w, snd w).
Proof. now destruct w. Qed.

(** ** The source of randomness and the three deterministic policies *)

Lemma access_ignores_random (s : CacheSimulator) (g1 g2 : Rng) (a : Z) :
  policy s <> RANDOM ->
  access a (s, g1) =
  (fst (access a (s, g2)), (fst (snd (access a (s, g2))), g1)).
Proof.
  destruct s as [cap pol c f q h m acc hist]. fields. intros Hp.
  unfold access, _update_on_hit, _update_on_miss, _evict, record_hit_rate,
    cache_move_to_end, del_cache, del_frequency, fifo_popleft,
    move_to_end, dict_delitem, dict_first, dict_min_by_value.
  destruct pol; [| | |congruence]; unfold_monad;
    repeat (case_inner; fields; unfold_monad; try reflexivity).
Qed.

(** What a call writes besides the cache and its metadata, from any state
    of the object. *)
Lemma access_frame (s : CacheSimulator) (g : Rng) (a : Z) :
  capacity (fst (snd (access a (s, g)))) = capacity s /\
  policy (fst (snd (access a (s, g)))) = policy s /\
  accesses (fst (snd (access a (s, g)))) = accesses s ++ [a] /\
  hits (fst (snd (access a (s, g)))) =
    hits s + (if is_hit (fst (access a (s, g))) then 1 else 0) /\
  misses (fst (snd (access a (s, g)))) =
    misses s + (if is_hit (fst (access a (s, g))) then 0 else 1) /\
  List.length (hit_rate_history (fst (snd (access a (s, g))))) =
    (List.length (hit_rate_history s) +
     (if returned (fst (access a (s, g))) then 1 else 0))%nat.
Proof.
  destruct s as [cap pol c f q h m acc hist]. fields.
  unfold access, _update_on_hit, _update_on_miss, _evict, record_hit_rate,
    cache_move_to_end, del_cache, del_frequency, fifo_popleft, choice, randbelow,
    move_to_end, dict_delitem, dict_first, dict_min_by_value.
  destruct pol; unfold_monad;
    repeat (case_inner; fields; unfold_monad; cbn [is_hit returned]);
    rewrite ?length_app; cbn [List.length]; repeat split; try lia;
    unfold dict_contains in *;
    match goal with H : dict_get _ _ = None |- _ => rewrite H in *; discriminate end.
Qed.

Lemma calls_ignore_random (trace : list Z) :
  forall (s : CacheSimulator) (g1 g2 : Rng),
    policy s <> RANDOM ->
    calls trace (s, g1) =
    (fst (calls trace (s, g2)), (fst (snd (calls trace (s, g2))), g1)).
Proof.
  induction trace as [|a trace IH]; intros s g1 g2 Hp; [reflexivity|].
  rewrite !calls_cons. rewrite (access_ignores_random s g1 g2 a Hp).
  pose proof (access_frame s g2 a) as (_ & Hpol & _).
  destruct (access a (s, g2)) as [o [s' g']]. simpl fst in *. simpl snd in *.
  assert (Hp' : policy s' <> RANDOM) by (rewrite Hpol; exact Hp).
  rewrite (IH s' g1 g' Hp'). reflexivity.
Qed.

(** X1. Under LRU, FIFO and LFU nothing depends on the source of
    randomness: the outcomes of the calls and the final state of the
    object are the same for any two sources, and the source is left as it
    was.  This holds for every capacity. *)
Theorem deterministic_policies_ignore_random
  (c : Z) (p : ReplacementPolicy) (g1 g2 : Rng) (trace : list Z) :
  p <> RANDOM ->
  fst (calls trace (fresh c p, g1)) = fst (calls trace (fresh c p, g2)) /\
  fst (after trace c p g1) = fst (after trace c p g2) /\
  snd (after trace c p g1) = g1.
Proof.
  intros Hp. unfold after.
  rewrite (calls_ignore_random trace (fresh c p) g1 g2 Hp). repeat split.
Qed.

Lemma deterministic_policies_ignore_random_witness :
  LFU <> RANDOM /\
  fst (calls [1; 2; 1; 3] (fresh 2 LFU, zeros)) =
    fst (calls [1; 2; 1; 3] (fresh 2 LFU, fun _ => 7%N)) /\
  fst (after [1; 2; 1; 3] 2 LFU zeros) = fst (after [1; 2; 1; 3] 2 LFU (fun _ => 7%N)) /\
  snd (after [1; 2; 1; 3] 2 LFU zeros) = zeros.
Proof.
  split; [discriminate|].
  apply (deterministic_policies_ignore_random 2 LFU zeros (fun _ => 7%N) [1; 2; 1; 3]).
  discriminate.
Defined.

(** ** Counters and logs *)

Lemma calls_frame (trace : list Z) :
  forall (s : CacheSimulator) (g : Rng),
    accesses (fst (snd (calls trace (s, g)))) = accesses s ++ trace /\
    hits (fst (snd (calls trace (s, g)))) = hits s + hit_count (fst (calls trace (s, g))) /\
    hits (fst (snd (calls trace (s, g)))) + misses (fst (snd (calls trace (s, g)))) =
      hits s + misses s + Z.of_nat (List.length trace) /\
    List.length (hit_rate_history (fst (snd (calls trace (s, g))))) =
      (List.length (hit_rate_history s) +
       List.length (filter returned (fst (calls trace (s, g)))))%nat.
Proof.
  induction trace as [|a trace IH]; intros s g.
  - simpl. rewrite app_nil_r, hit_count_nil. repeat split; lia.
  - rewrite calls_cons. simpl fst. simpl snd.
    destruct (access_frame s g a) as (_ & _ & Hacc & Hh & Hm & Hlen).
    destruct (access a (s, g)) as [o [s' g']]. simpl fst in *. simpl snd in *.
    destruct (IH s' g') as (Iacc & Ih & It & Ilen).
    rewrite Iacc, Ilen, Hacc, Hlen, hit_count_cons, <- app_assoc.
    simpl filter. simpl List.length.
    destruct (is_hit o); destruct (returned o); simpl List.length;
      repeat split; try reflexivity; lia.
Qed.

(** X2. Whatever the capacity, the policy and the outcomes: [accesses] is
    the list of the addresses of the calls made, in order; [hits] counts
    the calls that returned [True]; [hits + misses] is the number of
    calls, raising ones included; and [hit_rate_history] has one element
    per call that returned. *)
Theorem counters_follow_calls
  (c : Z) (p : ReplacementPolicy) (g : Rng) (trace : list Z) :
  accesses (fst (after trace c p g)) = trace /\
  hits (fst (after trace c p g)) = hit_count (fst (calls trace (fresh c p, g))) /\
  hits (fst (after trace c p g)) + misses (fst (after trace c p g)) =
    Z.of_nat (List.length trace) /\
  List.length (hit_rate_history (fst (after trace c p g))) =
    List.length (filter returned (fst (calls trace (fresh c p, g)))).
Proof.
  unfold after. destruct (calls_frame trace (fresh c p) g) as (H1 & H2 & H3 & H4).
  rewrite H1, H4. simpl in *. repeat split; lia.
Qed.

(** X3. With a capacity of at least 1 no call of [access] raises, from a
    new object on, under any policy and any source of randomness; each
    call returns whether the address was resident; and the loop
    [for addr in pattern: sim.access(addr)] runs to its end. *)
Theorem access_returns_with_capacity
  (c : Z) (p : ReplacementPolicy) (g : Rng) (trace : list Z) (a : Z) :
  1 <= c ->
  forallb returned (fst (calls trace (fresh c p, g))) = true /\
  run trace (fresh c p, g) = (Ret tt, after trace c p g) /\
  fst (access a (after trace c p g)) = Ret (resident a (fst (after trace c p g))).
Proof.
  intros Hc. pose proof (calls_return c p g trace Hc) as H.
  split; [exact H|]. split; [now apply run_calls|].
  destruct (after_facts trace c p g) as (Hcons & Hcap & _).
  rewrite (world_eta (after trace c p g)) at 1.
  destruct (access_with_capacity (fst (after trace c p g)) (snd (after trace c p g)) a Hcons)
    as (s' & g' & E & _); [lia|].
  now rewrite E.
Qed.

Lemma access_returns_with_capacity_witness :
  1 <= 1 /\
  forallb returned (fst (calls [5; 6; 5; 7] (fresh 1 RANDOM, zeros))) = true /\
  run [5; 6; 5; 7] (fresh 1 RANDOM, zeros) = (Ret tt, after [5; 6; 5; 7] 1 RANDOM zeros) /\
  fst (access 7 (after [5; 6; 5; 7] 1 RANDOM zeros)) =
    Ret (resident 7 (fst (after [5; 6; 5; 7] 1 RANDOM zeros))).
Proof.
  split; [lia|]. apply (access_returns_with_capacity 1 RANDOM zeros [5; 6; 5; 7] 7). lia.
Defined.

Lemma evict_empty_error (s : CacheSimulator) (g : Rng) :
  consistent s -> cache s = [] ->
  _evict (s, g) = (Exc (empty_cache_error (policy s)), (s, g)).
Proof.
  destruct s as [cap pol c f q h m acc hist].
  unfold consistent; fields. intros (_ & Hq & Hf) ->.
  destruct pol.
  - reflexivity.
  - rewrite (Hq eq_refl). reflexivity.
  - specialize (Hf eq_refl). destruct f; [reflexivity|discriminate].
  - reflexivity.
Qed.

Lemma access_without_room (s : CacheSimulator) (g : Rng) (a : Z) :
  consistent s -> capacity s <= 0 -> cache s = [] ->
  access a (s, g) = (Exc (empty_cache_error (policy s)), (count_miss a s, g)).
Proof.
  intros Hc Hcap He.
  assert (Hr : resident a s = false) by (unfold resident; now rewrite He).
  destruct (count_miss_fields a s) as (Hc1 & Ec & Ecap & Epol & _).
  rewrite (access_miss_unfold s g a Hr), update_on_miss_unfold.
  unfold bind at 1 2, get_self. fields.
  destruct (Z.geb_spec (Z.of_nat (List.length (cache (count_miss a s))))
              (capacity (count_miss a s))) as [_|Hlt];
    [|rewrite Ec, He, Ecap in Hlt; simpl in Hlt; lia].
  rewrite (evict_empty_error (count_miss a s) g (Hc1 Hc)) by congruence.
  now rewrite Epol.
Qed.

Lemma calls_without_capacity (trace : list Z) :
  forall (s : CacheSimulator) (g : Rng),
    consistent s -> capacity s <= 0 -> cache s = [] ->
    fst (calls trace (s, g)) = map (fun _ => Exc (empty_cache_error (policy s))) trace /\
    cache (fst (snd (calls trace (s, g)))) = [] /\
    hit_rate_history (fst (snd (calls trace (s, g)))) = hit_rate_history s /\
    snd (snd (calls trace (s, g))) = g.
Proof.
  induction trace as [|a trace IH]; intros s g Hc Hcap He; [now repeat split|].
  rewrite calls_cons, (access_without_room s g a Hc Hcap He). simpl fst. simpl snd.
  destruct (count_miss_fields a s) as (Hc1 & Ec & Ecap & Epol & _ & _ & Ehist).
  destruct (IH (count_miss a s) g (Hc1 Hc)) as (I1 & I2 & I3 & I4); [lia|congruence|].
  rewrite I1, I2, I3, I4, Epol, Ehist. now repeat split.
Qed.

(** X4. With a capacity of 0 or less every call of [access] on a new
    object raises, the exception being the one of the policy's victim
    selection on an empty cache (StopIteration for LRU, ValueError for LFU,
    IndexError for FIFO and RANDOM).  Nothing ever becomes resident, each
    call is counted as a miss, the history stays empty, no randomness is
    used, and the loop over a non-empty pattern ends on that exception. *)
Theorem calls_raise_without_capacity
  (c : Z) (p : ReplacementPolicy) (g : Rng) (trace : list Z) :
  c <= 0 ->
  fst (calls trace (fresh c p, g)) = map (fun _ => Exc (empty_cache_error p)) trace /\
  cache (fst (after trace c p g)) = [] /\
  hits (fst (after trace c p g)) = 0 /\
  misses (fst (after trace c p g)) = Z.of_nat (List.length trace) /\
  hit_rate_history (fst (after trace c p g)) = [] /\
  snd (after trace c p g) = g /\
  (trace <> [] -> fst (run trace (fresh c p, g)) = Exc (empty_cache_error p)).
Proof.
  intros Hc.
  destruct (calls_without_capacity trace (fresh c p) g (consistent_fresh c p) Hc eq_refl)
    as (H1 & H2 & H3 & H4).
  destruct (counters_follow_calls c p g trace) as (_ & Hh & Ht & _).
  unfold after in *. rewrite H1 in Hh. simpl policy in *.
  assert (Hz : hit_count (map (fun _ : Z => @Exc bool (empty_cache_error p)) trace) = 0).
  { clear. induction trace as [|a t IH]; [reflexivity|].
    simpl map. rewrite hit_count_cons, IH. reflexivity. }
  rewrite Hz in Hh.
  repeat split; auto; try lia.
  intros Hne. destruct trace as [|a trace]; [congruence|].
  simpl run. unfold bind.
  rewrite (access_without_room (fresh c p) g a (consistent_fresh c p) Hc eq_refl).
  reflexivity.
Qed.

Lemma calls_raise_without_capacity_witness :
  -3 <= 0 /\
  fst (calls [1; 1] (fresh (-3) LFU, zeros)) = map (fun _ => Exc (empty_cache_error LFU)) [1; 1] /\
  cache (fst (after [1; 1] (-3) LFU zeros)) = [] /\
  hits (fst (after [1; 1] (-3) LFU zeros)) = 0 /\
  misses (fst (after [1; 1] (-3) LFU zeros)) = Z.of_nat (List.length [1; 1]) /\
  hit_rate_history (fst (after [1; 1] (-3) LFU zeros)) = [] /\
  snd (after [1; 1] (-3) LFU zeros) = zeros /\
  ([1; 1] <> [] -> fst (run [1; 1] (fresh (-3) LFU, zeros)) = Exc (empty_cache_error LFU)).
Proof.
  split; [lia|]. apply (calls_raise_without_capacity (-3) LFU zeros [1; 1]). lia.
Defined.

(** ** One more call on a state reached from a new object *)

Lemma access_after (trace : list Z) (c : Z) (p : ReplacementPolicy) (g : Rng) (a : Z) :
  1 <= c ->
  exists s' g',
    access a (after trace c p g) = (Ret (resident a (fst (after trace c p g))), (s', g')) /\
    consistent s' /\
    keys (cache s') =
      (if resident a (fst (after trace c p g))
       then match p with
            | LRU => remove_first a (keys (cache (fst (after trace c p g)))) ++ [a]
            | _ => keys (cache (fst (after trace c p g)))
            end
       else if resident_count (fst (after trace c p g)) <? c
            then keys (cache (fst (after trace c p g))) ++ [a]
            else remove_first (victim (fst (after trace c p g)) (snd (after trace c p g)))
                   (keys (cache (fst (after trace c p g)))) ++ [a]) /\
    g' = (if resident a (fst (after trace c p g)) then snd (after trace c p g)
          else if resident_count (fst (after trace c p g)) <? c
               then snd (after trace c p g)
               else rng_after_evict p (snd (after trace c p g))) /\
    frequency s' =
      match p with
      | LFU =>
          if resident a (fst (after trace c p g))
          then dict_setitem a
                 (match dict_get a (frequency (fst (after trace c p g))) with
                  | Some n => n
                  | None => 0
                  end + 1)
                 (frequency (fst (after trace c p g)))
          else if resident_count (fst (after trace c p g)) <? c
               then dict_setitem a 1 (frequency (fst (after trace c p g)))
               else dict_setitem a 1
                      (dict_remove (victim (fst (after trace c p g)) (snd (after trace c p g)))
                         (frequency (fst (after trace c p g))))
      | _ => frequency (fst (after trace c p g))
      end /\
    (resident a (fst (after trace c p g)) = false ->
     c <= resident_count (fst (after trace c p g)) ->
     In (victim (fst (after trace c p g)) (snd (after trace c p g)))
        (keys (cache (fst (after trace c p g))))).
Proof.
  intros Hc. pose proof (after_facts trace c p g) as (Hcons & Hcap & Hpol & _).
  destruct (after trace c p g) as [s g0]. simpl fst in *. simpl snd in *.
  destruct (access_with_capacity s g0 a Hcons)
    as (s' & g' & E & Hc' & Hk & Hg & Hf & _ & Hv); [lia|].
  rewrite Hcap, Hpol in *. exists s', g'. auto 10.
Qed.

Lemma remove_first_hd (l : list Z) : remove_first (hd 0 l) l = tl l.
Proof. destruct l as [|x t]; [reflexivity|]. simpl. now rewrite Z.eqb_refl. Qed.

Lemma resident_In (x : Z) (s : CacheSimulator) :
  resident x s = true <-> In x (keys (cache s)).
Proof. apply dict_contains_In. Qed.

Lemma resident_not_In (x : Z) (s : CacheSimulator) :
  resident x s = false <-> ~ In x (keys (cache s)).
Proof. apply dict_contains_false. Qed.

Lemma resident_count_keys (s : CacheSimulator) :
  resident_count s = Z.of_nat (List.length (keys (cache s))).
Proof. unfold resident_count. now rewrite keys_length. Qed.

(** X5. With a capacity of at least 1, the address of a call is resident
    when the call is over, whatever the policy and whether it was a hit
    or a miss. *)
Theorem accessed_address_is_resident
  (c : Z) (p : ReplacementPolicy) (g : Rng) (trace : list Z) (a : Z) :
  1 <= c ->
  resident a (fst (snd (access a (after trace c p g)))) = true.
Proof.
  intros Hc. destruct (access_after trace c p g a Hc) as (s' & g' & E & _ & Hk & _).
  rewrite E. simpl. apply resident_In. rewrite Hk.
  destruct (resident a (fst (after trace c p g))) eqn:Hr.
  - apply resident_In in Hr. destruct p; auto.
    apply in_or_app. right. now left.
  - destruct (resident_count (fst (after trace c p g)) <? c);
      apply in_or_app; right; now left.
Qed.

Lemma accessed_address_is_resident_witness :
  1 <= 2 /\ resident 9 (fst (snd (access 9 (after [1; 2; 3] 2 FIFO zeros)))) = true.
Proof.
  split; [lia|]. apply (accessed_address_is_resident 2 FIFO zeros [1; 2; 3] 9). lia.
Defined.

(** X6. A miss on a full cache (capacity at least 1) replaces exactly
    one block, under every policy: the call returns [False], the count of
    resident blocks stays at the capacity, the new address is resident,
    one address that was resident is not any more, and every other
    address is resident after the call exactly if it was before. *)
Theorem full_miss_replaces_one
  (c : Z) (p : ReplacementPolicy) (g : Rng) (trace : list Z) (a : Z) :
  1 <= c ->
  resident a (fst (after trace c p g)) = false ->
  resident_count (fst (after trace c p g)) = c ->
  fst (access a (after trace c p g)) = Ret false /\
  resident_count (fst (snd (access a (after trace c p g)))) = c /\
  resident a (fst (snd (access a (after trace c p g)))) = true /\
  exists v,
    resident v (fst (after trace c p g)) = true /\
    resident v (fst (snd (access a (after trace c p g)))) = false /\
    forall x, x <> v -> x <> a ->
              resident x (fst (snd (access a (after trace c p g)))) =
              resident x (fst (after trace c p g)).
Proof.
  intros Hc Hr Hfull.
  destruct (access_after trace c p g a Hc) as (s' & g' & E & _ & Hk & _ & _ & Hv).
  destruct (after_facts trace c p g) as ((Hnd & _) & _).
  rewrite E, Hr in *. simpl fst. simpl snd.
  specialize (Hv eq_refl ltac:(lia)).
  rewrite (proj2 (Z.ltb_ge _ _)) in Hk by lia.
  set (s := fst (after trace c p g)) in *.
  set (v := victim s (snd (after trace c p g))) in *.
  apply resident_not_In in Hr.
  split; [reflexivity|]. split.
  { rewrite resident_count_keys, Hk, length_app. simpl List.length.
    rewrite resident_count_keys in Hfull.
    pose proof (remove_first_length v (keys (cache s)) Hv). lia. }
  split.
  { apply resident_In. rewrite Hk. apply in_or_app. right. now left. }
  exists v. split; [now apply resident_In|]. split.
  - apply resident_not_In. rewrite Hk. intros H. apply in_app_or in H.
    destruct H as [H|[H|[]]].
    + now apply (proj2 (remove_first_NoDup v (keys (cache s)) Hnd)).
    + subst a. contradiction.
  - intros x Hxv Hxa. unfold resident. apply dict_contains_same_keys. rewrite Hk.
    rewrite in_app_iff. simpl. split.
    + intros [H|[H|[]]]; [eapply remove_first_incl; eauto|congruence].
    + intros H. left. now apply remove_first_keeps.
Qed.

Lemma full_miss_replaces_one_witness :
  1 <= 2 /\
  resident 3 (fst (after [1; 2; 1] 2 LRU zeros)) = false /\
  resident_count (fst (after [1; 2; 1] 2 LRU zeros)) = 2 /\
  fst (access 3 (after [1; 2; 1] 2 LRU zeros)) = Ret false /\
  resident_count (fst (snd (access 3 (after [1; 2; 1] 2 LRU zeros)))) = 2 /\
  resident 3 (fst (snd (access 3 (after [1; 2; 1] 2 LRU zeros)))) = true /\
  exists v,
    resident v (fst (after [1; 2; 1] 2 LRU zeros)) = true /\
    resident v (fst (snd (access 3 (after [1; 2; 1] 2 LRU zeros)))) = false /\
    forall x, x <> v -> x <> 3 ->
              resident x (fst (snd (access 3 (after [1; 2; 1] 2 LRU zeros)))) =
              resident x (fst (after [1; 2; 1] 2 LRU zeros)).
Proof.
  split; [lia|]. split; [reflexivity|]. split; [reflexivity|].
  apply (full_miss_replaces_one 2 LRU zeros [1; 2; 1] 3); [lia|reflexivity|reflexivity].
Defined.

(** X7. A miss while there is room evicts nothing: the call returns
    [False], the address is added and every address that was resident
    still is. *)
Theorem miss_with_room_only_adds
  (c : Z) (p : ReplacementPolicy) (g : Rng) (trace : list Z) (a : Z) :
  resident a (fst (after trace c p g)) = false ->
  resident_count (fst (after trace c p g)) < c ->
  fst (access a (after trace c p g)) = Ret false /\
  resident_count (fst (snd (access a (after trace c p g)))) =
    resident_count (fst (after trace c p g)) + 1 /\
  forall x, resident x (fst (snd (access a (after trace c p g)))) =
            (x =? a) || resident x (fst (after trace c p g)).
Proof.
  intros Hr Hlt.
  assert (Hc : 1 <= c) by (unfold resident_count in Hlt; lia).
  destruct (access_after trace c p g a Hc) as (s' & g' & E & _ & Hk & _).
  rewrite E, Hr in *. simpl fst. simpl snd.
  rewrite (proj2 (Z.ltb_lt _ _)) in Hk by lia.
  split; [reflexivity|]. split.
  - rewrite !resident_count_keys, Hk, length_app. simpl List.length. lia.
  - intros x. destruct (Z.eqb_spec x a) as [->|Hne]; simpl.
    + apply resident_In. rewrite Hk. apply in_or_app. right. now left.
    + unfold resident. apply dict_contains_same_keys. rewrite Hk, in_app_iff. simpl.
      intuition congruence.
Qed.

Lemma miss_with_room_only_adds_witness :
  resident 2 (fst (after [1] 3 LFU zeros)) = false /\
  resident_count (fst (after [1] 3 LFU zeros)) < 3 /\
  fst (access 2 (after [1] 3 LFU zeros)) = Ret false /\
  resident_count (fst (snd (access 2 (after [1] 3 LFU zeros)))) =
    resident_count (fst (after [1] 3 LFU zeros)) + 1 /\
  forall x, resident x (fst (snd (access 2 (after [1] 3 LFU zeros)))) =
            (x =? 2) || resident x (fst (after [1] 3 LFU zeros)).
Proof.
  split; [reflexivity|]. split; [reflexivity|].
  apply (miss_with_room_only_adds 3 LFU zeros [1] 2); reflexivity.
Defined.

(** ** The policies *)

(** X8. LRU keeps the cache in order of last use, least recent first: a
    hit moves the address to the end, a miss appends it, and a miss on a
    full cache first drops the first address. *)
Theorem lru_order (c : Z) (g : Rng) (trace : list Z) (a : Z) :
  1 <= c ->
  keys (cache (fst (snd (access a (after trace c LRU g))))) =
  (if resident a (fst (after trace c LRU g))
   then remove_first a (keys (cache (fst (after trace c LRU g)))) ++ [a]
   else if resident_count (fst (after trace c LRU g)) <? c
        then keys (cache (fst (after trace c LRU g))) ++ [a]
        else tl (keys (cache (fst (after trace c LRU g)))) ++ [a]).
Proof.
  intros Hc. destruct (access_after trace c LRU g a Hc) as (s' & g' & E & _ & Hk & _).
  rewrite E. simpl fst. simpl snd. rewrite Hk.
  unfold victim. destruct (after_facts trace c LRU g) as (_ & _ & -> & _).
  now rewrite remove_first_hd.
Qed.

Lemma lru_order_witness :
  1 <= 2 /\
  keys (cache (fst (snd (access 1 (after [1; 2] 2 LRU zeros))))) =
  (if resident 1 (fst (after [1; 2] 2 LRU zeros))
   then remove_first 1 (keys (cache (fst (after [1; 2] 2 LRU zeros)))) ++ [1]
   else if resident_count (fst (after [1; 2] 2 LRU zeros)) <? 2
        then keys (cache (fst (after [1; 2] 2 LRU zeros))) ++ [1]
        else tl (keys (cache (fst (after [1; 2] 2 LRU zeros)))) ++ [1]).
Proof. split; [lia|]. apply (lru_order 2 zeros [1; 2] 1). lia. Defined.

Lemma last_key_survives (l : list Z) (a b : Z) :
  (2 <= List.length (l ++ [a]))%nat -> In a (tl (l ++ [a]) ++ [b]).
Proof.
  destruct l as [|x t]; simpl; [lia|]. intros _.
  apply in_or_app. left. apply in_or_app. right. now left.
Qed.

(** X9. Under LRU with a capacity of at least 2, the address of a call
    is still resident after the next call, whatever that call is. *)
Theorem lru_keeps_most_recent (c : Z) (g : Rng) (trace : list Z) (a b : Z) :
  2 <= c ->
  resident a (fst (after (trace ++ [a; b]) c LRU g)) = true.
Proof.
  intros Hc.
  replace (trace ++ [a; b]) with ((trace ++ [a]) ++ [b]) by now rewrite <- app_assoc.
  rewrite after_snoc.
  assert (Hlast : exists l, keys (cache (fst (after (trace ++ [a]) c LRU g))) = l ++ [a]).
  { rewrite after_snoc, lru_order by lia.
    destruct (resident a (fst (after trace c LRU g))); [eauto|].
    destruct (resident_count (fst (after trace c LRU g)) <? c); eauto. }
  destruct Hlast as [l Hl].
  apply resident_In. rewrite lru_order by lia. rewrite Hl.
  destruct (resident b (fst (after (trace ++ [a]) c LRU g))) eqn:Hb.
  - destruct (Z.eq_dec a b) as [->|Hne].
    + apply in_or_app. right. now left.
    + apply in_or_app. left. apply remove_first_keeps; [exact Hne|].
      apply in_or_app. right. now left.
  - destruct (Z.ltb_spec (resident_count (fst (after (trace ++ [a]) c LRU g))) c) as [Hlt|Hge].
    + apply in_or_app. left. apply in_or_app. right. now left.
    + apply last_key_survives. rewrite resident_count_keys, Hl in Hge. lia.
Qed.

Lemma lru_keeps_most_recent_witness :
  2 <= 2 /\ resident 1 (fst (after ([1; 2] ++ [1; 3]) 2 LRU zeros)) = true.
Proof. split; [lia|]. apply (lru_keeps_most_recent 2 zeros [1; 2] 1 3). lia. Defined.

(** X10. FIFO keeps the cache in order of insertion and the queue equal
    to it: a hit changes nothing, a miss appends the address, and a miss
    on a full cache first drops the first address. *)
Theorem fifo_order (c : Z) (g : Rng) (trace : list Z) (a : Z) :
  1 <= c ->
  keys (cache (fst (snd (access a (after trace c FIFO g))))) =
  (if resident a (fst (after trace c FIFO g))
   then keys (cache (fst (after trace c FIFO g)))
   else if resident_count (fst (after trace c FIFO g)) <? c
        then keys (cache (fst (after trace c FIFO g))) ++ [a]
        else tl (keys (cache (fst (after trace c FIFO g)))) ++ [a]) /\
  fifo_queue (fst (snd (access a (after trace c FIFO g)))) =
  keys (cache (fst (snd (access a (after trace c FIFO g))))).
Proof.
  intros Hc. destruct (access_after trace c FIFO g a Hc) as (s' & g' & E & Hc' & Hk & _).
  pose proof (access_frame (fst (after trace c FIFO g)) (snd (after trace c FIFO g)) a)
    as (_ & Hpol & _).
  rewrite <- world_eta in Hpol.
  rewrite E in *. simpl fst in *. simpl snd in *. rewrite Hk.
  destruct (after_facts trace c FIFO g) as ((_ & Hq & _) & _ & Hp & _).
  split.
  - unfold victim. rewrite Hp, (Hq Hp). now rewrite remove_first_hd.
  - rewrite <- Hk. apply Hc'. congruence.
Qed.

Lemma fifo_order_witness :
  1 <= 2 /\
  keys (cache (fst (snd (access 3 (after [1; 2; 1] 2 FIFO zeros))))) =
  (if resident 3 (fst (after [1; 2; 1] 2 FIFO zeros))
   then keys (cache (fst (after [1; 2; 1] 2 FIFO zeros)))
   else if resident_count (fst (after [1; 2; 1] 2 FIFO zeros)) <? 2
        then keys (cache (fst (after [1; 2; 1] 2 FIFO zeros))) ++ [3]
        else tl (keys (cache (fst (after [1; 2; 1] 2 FIFO zeros)))) ++ [3]) /\
  fifo_queue (fst (snd (access 3 (after [1; 2; 1] 2 FIFO zeros)))) =
  keys (cache (fst (snd (access 3 (after [1; 2; 1] 2 FIFO zeros))))).
Proof. split; [lia|]. apply (fifo_order 2 zeros [1; 2; 1] 3). lia. Defined.

Lemma min_scan_first_minimum (rest : dict Z) :
  forall (best : Z * Z) (pre mid : dict Z),
    (forall x, In x pre -> snd best < snd x) ->
    (forall x, In x mid -> snd best <= snd x) ->
    exists l1 l2 n,
      pre ++ best :: mid ++ rest = l1 ++ (min_scan best rest, n) :: l2 /\
      (forall x, In x l1 -> n < snd x) /\
      (forall x, In x l2 -> n <= snd x).
Proof.
  induction rest as [|[k v] rest IH]; intros best pre mid Hpre Hmid.
  - exists pre, mid, (snd best). simpl. rewrite app_nil_r.
    destruct best. simpl in *. auto.
  - simpl min_scan. destruct (Z.ltb_spec v (snd best)) as [Hlt|Hge].
    + destruct (IH (k, v) (pre ++ best :: mid) []) as (l1 & l2 & n & E & H1 & H2).
      * intros x Hx. simpl. apply in_app_or in Hx. destruct Hx as [Hx|[<-|Hx]].
        -- specialize (Hpre x Hx). lia.
        -- exact Hlt.
        -- specialize (Hmid x Hx). lia.
      * intros x [].
      * exists l1, l2, n. split; [|auto].
        rewrite <- E. simpl. rewrite <- app_assoc. reflexivity.
    + destruct (IH best pre (mid ++ [(k, v)])) as (l1 & l2 & n & E & H1 & H2).
      * exact Hpre.
      * intros x Hx. apply in_app_or in Hx. destruct Hx as [Hx|[<-|[]]]; [auto|exact Hge].
      * exists l1, l2, n. split; [|auto].
        rewrite <- E. rewrite <- app_assoc. reflexivity.
Qed.

Lemma dict_remove_middle {V : Type} (k : Z) (v : V) (l1 l2 : dict V) :
  ~ In k (keys l1) -> dict_remove k (l1 ++ (k, v) :: l2) = l1 ++ l2.
Proof.
  induction l1 as [|[k' v'] t IH]; simpl; intros H.
  - now rewrite Z.eqb_refl.
  - destruct (Z.eqb_spec k' k) as [->|Hne]; [tauto|]. f_equal. apply IH. tauto.
Qed.

Lemma dict_setitem_new {V : Type} (k : Z) (v : V) (d : dict V) :
  ~ In k (keys d) -> dict_setitem k v d = d ++ [(k, v)].
Proof.
  induction d as [|[k' v'] t IH]; simpl; intros H; [reflexivity|].
  destruct (Z.eqb_spec k' k) as [->|Hne]; [tauto|]. f_equal. apply IH. tauto.
Qed.

(** X11. A miss on a full cache under LFU evicts the first address, in
    the order of the frequency table, among those of least frequency:
    every address before it has a strictly larger count and every
    address after it a count at least as large.  The victim leaves the
    table and the new address enters it last, with count 1. *)
Theorem lfu_evicts_first_minimum (c : Z) (g : Rng) (trace : list Z) (a : Z) :
  1 <= c ->
  resident a (fst (after trace c LFU g)) = false ->
  resident_count (fst (after trace c LFU g)) = c ->
  exists v n before later,
    frequency (fst (after trace c LFU g)) = before ++ (v, n) :: later /\
    (forall k m, In (k, m) before -> n < m) /\
    (forall k m, In (k, m) later -> n <= m) /\
    keys (cache (fst (snd (access a (after trace c LFU g))))) =
      remove_first v (keys (cache (fst (after trace c LFU g)))) ++ [a] /\
    frequency (fst (snd (access a (after trace c LFU g)))) =
      before ++ later ++ [(a, 1)].
Proof.
  intros Hc Hr Hfull.
  destruct (access_after trace c LFU g a Hc) as (s' & g' & E & _ & Hk & _ & Hf & _).
  destruct (after_facts trace c LFU g) as ((Hnd & _ & Hfk) & _ & Hp & _).
  rewrite E, Hr in *. simpl fst. simpl snd.
  rewrite (proj2 (Z.ltb_ge _ _)) in Hk, Hf by lia.
  specialize (Hfk Hp). apply resident_not_In in Hr.
  set (s := fst (after trace c LFU g)) in *.
  unfold victim in *. rewrite Hp in *.
  destruct (frequency s) as [|e t] eqn:Ef.
  { rewrite resident_count_keys, <- Hfk in Hfull. simpl in Hfull. lia. }
  destruct (min_scan_first_minimum t e [] []) as (l1 & l2 & n & El & H1 & H2);
    [intros x []|intros x []|].
  simpl in El.
  exists (min_scan e t), n, l1, l2.
  assert (Hnd' : NoDup (keys (l1 ++ (min_scan e t, n) :: l2))) by (rewrite <- El, Hfk; exact Hnd).
  assert (Hv1 : ~ In (min_scan e t) (keys l1)).
  { rewrite keys_app in Hnd'. simpl in Hnd'. apply NoDup_remove_2 in Hnd'.
    intros H. apply Hnd'. apply in_or_app. now left. }
  split; [exact El|]. split; [intros k m H; exact (H1 (k, m) H)|].
  split; [intros k m H; exact (H2 (k, m) H)|]. split; [exact Hk|].
  rewrite Hf, El, dict_remove_middle by exact Hv1.
  rewrite dict_setitem_new, <- app_assoc; [reflexivity|].
  intros H. apply Hr. rewrite <- Hfk, El. rewrite !keys_app in *. simpl.
  apply in_app_or in H. apply in_or_app. destruct H; [now left|right; now right].
Qed.

Lemma lfu_evicts_first_minimum_witness :
  1 <= 3 /\
  resident 4 (fst (after [1; 2; 3; 1; 3] 3 LFU zeros)) = false /\
  resident_count (fst (after [1; 2; 3; 1; 3] 3 LFU zeros)) = 3 /\
  exists v n before later,
    frequency (fst (after [1; 2; 3; 1; 3] 3 LFU zeros)) = before ++ (v, n) :: later /\
    (forall k m, In (k, m) before -> n < m) /\
    (forall k m, In (k, m) later -> n <= m) /\
    keys (cache (fst (snd (access 4 (after [1; 2; 3; 1; 3] 3 LFU zeros))))) =
      remove_first v (keys (cache (fst (after [1; 2; 3; 1; 3] 3 LFU zeros)))) ++ [4] /\
    frequency (fst (snd (access 4 (after [1; 2; 3; 1; 3] 3 LFU zeros)))) =
      before ++ later ++ [(4, 1)].
Proof.
  split; [lia|]. split; [reflexivity|]. split; [reflexivity|].
  apply (lfu_evicts_first_minimum 3 zeros [1; 2; 3; 1; 3] 4); [lia|reflexivity|reflexivity].
Defined.

(** X12. A hit under LFU adds 1 to the count of the address and leaves
    every other count, the order of the table and the cache as they
    were. *)
Theorem lfu_hit_counts (c : Z) (g : Rng) (trace : list Z) (a : Z) :
  resident a (fst (after trace c LFU g)) = true ->
  exists n,
    dict_get a (frequency (fst (after trace c LFU g))) = Some n /\
    frequency (fst (snd (access a (after trace c LFU g)))) =
      dict_setitem a (n + 1) (frequency (fst (after trace c LFU g))) /\
    dict_get a (frequency (fst (snd (access a (after trace c LFU g))))) = Some (n + 1) /\
    keys (frequency (fst (snd (access a (after trace c LFU g))))) =
      keys (frequency (fst (after trace c LFU g))) /\
    keys (cache (fst (snd (access a (after trace c LFU g))))) =
      keys (cache (fst (after trace c LFU g))).
Proof.
  intros Hr.
  destruct (after_facts trace c LFU g) as ((_ & _ & Hfk) & _ & Hp & _).
  specialize (Hfk Hp).
  pose proof (access_hit_detail (fst (after trace c LFU g)) (snd (after trace c LFU g)) a Hr)
    as (s' & E & Hk & Hf & _).
  rewrite <- world_eta in E. rewrite E. simpl fst. simpl snd.
  rewrite Hp in *.
  assert (Hin : In a (keys (frequency (fst (after trace c LFU g)))))
    by (rewrite Hfk; now apply resident_In).
  destruct (dict_get a (frequency (fst (after trace c LFU g)))) as [n|] eqn:En;
    [|apply dict_get_None in En; contradiction].
  exists n. rewrite Hf, Hk, dict_get_setitem, keys_setitem_present by exact Hin.
  repeat split.
Qed.

Lemma lfu_hit_counts_witness :
  resident 1 (fst (after [1; 2; 1] 2 LFU zeros)) = true /\
  exists n,
    dict_get 1 (frequency (fst (after [1; 2; 1] 2 LFU zeros))) = Some n /\
    frequency (fst (snd (access 1 (after [1; 2; 1] 2 LFU zeros)))) =
      dict_setitem 1 (n + 1) (frequency (fst (after [1; 2; 1] 2 LFU zeros))) /\
    dict_get 1 (frequency (fst (snd (access 1 (after [1; 2; 1] 2 LFU zeros))))) = Some (n + 1) /\
    keys (frequency (fst (snd (access 1 (after [1; 2; 1] 2 LFU zeros))))) =
      keys (frequency (fst (after [1; 2; 1] 2 LFU zeros))) /\
    keys (cache (fst (snd (access 1 (after [1; 2; 1] 2 LFU zeros))))) =
      keys (cache (fst (after [1; 2; 1] 2 LFU zeros))).
Proof.
  split; [reflexivity|]. apply (lfu_hit_counts 2 zeros [1; 2; 1] 1). reflexivity.
Defined.



(** ** Invariants of the metadata *)

Lemma dict_get_In {V : Type} (k : Z) (v : V) (d : dict V) :
  dict_get k d = Some v -> In (k, v) d.
Proof.
  induction d as [|[k' v'] t IH]; simpl; [discriminate|].
  destruct (Z.eqb_spec k' k) as [->|Hne].
  - intros [= ->]. now left.
  - intros H. right. now apply IH.
Qed.

Lemma In_dict_setitem {V : Type} (k a : Z) (v w : V) (d : dict V) :
  In (k, v) (dict_setitem a w d) -> (k, v) = (a, w) \/ In (k, v) d.
Proof.
  induction d as [|[k' v'] t IH]; simpl.
  - intros [H|[]]. left. now symmetry.
  - destruct (Z.eqb_spec k' a) as [->|Hne]; simpl.
    + intros [H|H]; [left; now symmetry|right; now right].
    + intros [H|H]; [right; now left|]. destruct (IH H); [now left|right; now right].
Qed.

Lemma In_dict_remove {V : Type} (x : Z * V) (a : Z) (d : dict V) :
  In x (dict_remove a d) -> In x d.
Proof.
  induction d as [|[k' v'] t IH]; simpl; [tauto|].
  destruct (k' =? a); simpl; [now right|]. intros [H|H]; [now left|right; auto].
Qed.

Lemma access_counts_positive (s : CacheSimulator) (g : Rng) (a : Z) :
  consistent s -> counts_positive (frequency s) ->
  counts_positive (frequency (fst (snd (access a (s, g))))).
Proof.
  intros Hc Hpos.
  assert (Hset : forall w f, 1 <= w -> counts_positive f ->
                             counts_positive (dict_setitem a w f)).
  { intros w f Hw Hf k n H. apply In_dict_setitem in H.
    destruct H as [[= -> ->]|H]; [exact Hw|exact (Hf k n H)]. }
  assert (Hrem : forall v f, counts_positive f -> counts_positive (dict_remove v f)).
  { intros v f Hf k n H. apply In_dict_remove in H. exact (Hf k n H). }
  destruct (resident a s) eqn:Hr.
  - destruct (access_hit_detail s g a Hr) as (s' & E & _ & Hf & _).
    rewrite E. simpl. rewrite Hf. destruct (policy s); auto.
    apply Hset; [|exact Hpos].
    destruct (dict_get a (frequency s)) as [n|] eqn:En; [|lia].
    apply dict_get_In in En. specialize (Hpos a n En). lia.
  - destruct (Z.ltb_spec (resident_count s) (capacity s)) as [Hlt|Hge].
    + destruct (access_miss_room s g a Hc Hr Hlt) as (s' & E & _ & Hf & _).
      rewrite E. simpl. rewrite Hf. destruct (policy s); auto. apply Hset; [lia|exact Hpos].
    + destruct (cache s) as [|b t] eqn:Hcache.
      * unfold resident_count in Hge. rewrite Hcache in Hge. simpl in Hge.
        rewrite (access_without_room s g a Hc Hge Hcache). cbn [fst snd].
        destruct (victim_count_miss a s g) as (_ & -> & _). exact Hpos.
      * assert (Hne : cache s <> []) by (rewrite Hcache; discriminate).
        destruct (access_miss_full s g a Hc Hr Hge Hne) as (s' & E & _ & _ & Hf & _).
        rewrite E. simpl. rewrite Hf. destruct (policy s); auto.
        apply Hset; [lia|]. apply Hrem. exact Hpos.
Qed.

Lemma calls_counts_positive (trace : list Z) :
  forall (s : CacheSimulator) (g : Rng),
    consistent s -> counts_positive (frequency s) ->
    counts_positive (frequency (fst (snd (calls trace (s, g))))).
Proof.
  induction trace as [|a trace IH]; intros s g Hc Hpos; [exact Hpos|].
  rewrite calls_cons. simpl snd.
  pose proof (access_counts_positive s g a Hc Hpos) as Hpos'.
  destruct (access_step s g a Hc) as (o & s1 & g1 & E & Hc1 & _).
  rewrite E in *. simpl in *. now apply IH.
Qed.

(** X14. After any sequence of calls on a new object, whatever the
    capacity: no address is resident twice; under FIFO the queue lists the
    resident addresses in the order of the cache; under LFU the frequency
    table has exactly the resident addresses, in that order, each with a
    count of at least 1. *)
Theorem metadata_in_step
  (c : Z) (p : ReplacementPolicy) (g : Rng) (trace : list Z) :
  NoDup (keys (cache (fst (after trace c p g)))) /\
  match p with
  | FIFO => fifo_queue (fst (after trace c p g)) = keys (cache (fst (after trace c p g)))
  | LFU => keys (frequency (fst (after trace c p g))) = keys (cache (fst (after trace c p g))) /\
           counts_positive (frequency (fst (after trace c p g)))
  | _ => True
  end.
Proof.
  destruct (after_facts trace c p g) as ((Hnd & Hq & Hf) & _ & Hp & _).
  split; [exact Hnd|]. rewrite Hp in *. destruct p; auto.
  split; [auto|]. unfold after.
  apply calls_counts_positive; [apply consistent_fresh|]. intros k n [].
Qed.

(** X15. With capacity 1 the cache holds, after every call, exactly the
    address of that call, under every policy. *)
Theorem capacity_one_holds_last
  (p : ReplacementPolicy) (g : Rng) (trace : list Z) (a : Z) :
  keys (cache (fst (snd (access a (after trace 1 p g))))) = [a].
Proof.
  pose proof (accessed_address_is_resident 1 p g trace a ltac:(lia)) as Hin.
  destruct (after_facts (trace ++ [a]) 1 p g) as (_ & _ & _ & Hrc).
  rewrite after_snoc in Hrc. specialize (Hrc ltac:(lia)).
  apply resident_In in Hin. rewrite resident_count_keys in Hrc.
  destruct (keys (cache (fst (snd (access a (after trace 1 p g)))))) as [|x [|y t]].
  - destruct Hin.
  - destruct Hin as [->|[]]. reflexivity.
  - simpl in Hrc. lia.
Qed.

(** ** Traces without a repeated address *)

Lemma calls_distinct (l : list Z) :
  forall (s : CacheSimulator) (g : Rng),
    consistent s -> 1 <= capacity s -> NoDup l ->
    (forall x, In x l -> ~ In x (keys (cache s))) ->
    fst (calls l (s, g)) = map (fun _ => Ret false) l /\
    hits (fst (snd (calls l (s, g)))) = hits s.
Proof.
  induction l as [|a l IH]; intros s g Hc Hcap Hnd Hnew; [now split|].
  rewrite calls_cons.
  assert (Hr : resident a s = false) by (apply resident_not_In, Hnew; now left).
  destruct (access_with_capacity s g a Hc Hcap) as (s' & g' & E & Hc' & Hk & _).
  pose proof (access_frame s g a) as (Fcap & _ & _ & Fh & _).
  rewrite E, Hr in *. simpl fst in *. simpl snd in *.
  inversion Hnd as [|? ? Ha Hnd']; subst.
  destruct (IH s' g' Hc') as (I1 & I2); [lia|exact Hnd'| |].
  - intros x Hx. rewrite Hk.
    assert (Hxa : x <> a) by (intros ->; contradiction).
    assert (Hxs : ~ In x (keys (cache s))) by (apply Hnew; now right).
    destruct (resident_count s <? capacity s); rewrite in_app_iff; simpl;
      intros [H|[H|[]]]; try congruence; try contradiction.
    apply Hxs. eapply remove_first_incl; eauto.
  - rewrite I1, I2, Fh. simpl. split; [reflexivity|lia].
Qed.

(** X16. A trace in which no address occurs twice never hits: with a
    capacity of at least 1, every call returns [False] and the hit rate
    stays 0.0, under every policy, however small the cache. *)
Theorem distinct_addresses_never_hit
  (c : Z) (p : ReplacementPolicy) (g : Rng) (trace : list Z) :
  1 <= c -> NoDup trace ->
  fst (calls trace (fresh c p, g)) = map (fun _ => Ret false) trace /\
  hits (fst (after trace c p g)) = 0 /\
  get_hit_rate (fst (after trace c p g)) = Float.zero.
Proof.
  intros Hc Hnd.
  destruct (calls_distinct trace (fresh c p) g (consistent_fresh c p) Hc Hnd) as (H1 & H2);
    [intros x _ []|].
  unfold after. split; [exact H1|]. split; [exact H2|].
  rewrite get_hit_rate_percent, H2. apply zero_percent.
Qed.

Lemma distinct_addresses_never_hit_witness :
  1 <= 1 /\ NoDup [4; 2; 9] /\
  fst (calls [4; 2; 9] (fresh 1 RANDOM, zeros)) = map (fun _ => Ret false) [4; 2; 9] /\
  hits (fst (after [4; 2; 9] 1 RANDOM zeros)) = 0 /\
  get_hit_rate (fst (after [4; 2; 9] 1 RANDOM zeros)) = Float.zero.
Proof.
  assert (H : NoDup [4; 2; 9]) by (repeat constructor; simpl; lia).
  split; [lia|]. split; [exact H|].
  apply (distinct_addresses_never_hit 1 RANDOM zeros [4; 2; 9]); [lia|exact H].
Defined.

(** ** [generate_access_pattern] *)

Lemma randint_bounds (a b : Z) (g : Rng) :
  a <= b -> a <= fst (randint a b g) <= b.
Proof.
  intros H. unfold randint. simpl fst.
  pose proof (Z.mod_pos_bound (Z.of_N (g O)) (b - a + 1) ltac:(lia)). lia.
Qed.

Lemma random_draws_length (steps : list Z) (hi : Z) :
  forall g, List.length (fst (random_draws steps hi g)) = List.length steps.
Proof.
  induction steps as [|x steps IH]; intros g; [reflexivity|].
  simpl. specialize (IH (rng_tail g)).
  destruct (random_draws steps hi (rng_tail g)). simpl in *. now rewrite IH.
Qed.

Lemma random_draws_bounds (steps : list Z) (hi : Z) :
  0 <= hi ->
  forall g x, In x (fst (random_draws steps hi g)) -> 0 <= x <= hi.
Proof.
  intros Hhi. induction steps as [|y steps IH]; intros g x; [intros []|].
  simpl. pose proof (randint_bounds 0 hi g Hhi) as Hb. unfold randint in Hb. simpl in Hb.
  specialize (IH (rng_tail g) x).
  destruct (random_draws steps hi (rng_tail g)). simpl in *.
  intros [<-|H]; [lia|auto].
Qed.

Lemma locality_walk_shape (steps : list Z) :
  forall (pattern : list Z) (current : Z) (g : Rng),
  exists l,
    fst (locality_walk steps pattern current g) = pattern ++ l /\
    List.length l = List.length steps /\
    match l with
    | [] => True
    | x :: rest => x = current /\ locality_steps current rest
    end.
Proof.
  induction steps as [|y steps IH]; intros pattern current g.
  - exists []. simpl. now rewrite app_nil_r.
  - cbn [locality_walk].
    destruct (random_unit g) as [u g1].
    set (d := if Float.ltb u Float.lit_0_8 then randint 1 5 g1 else randint 20 100 g1).
    assert (Hd : 1 <= fst d <= 5 \/ 20 <= fst d <= 100).
    { unfold d. destruct (Float.ltb u Float.lit_0_8).
      - left. apply randint_bounds. lia.
      - right. apply randint_bounds. lia. }
    destruct d as [step g2]. simpl in Hd. cbv beta iota zeta.
    destruct (IH (pattern ++ [current]) (current + step) g2) as (l & E & Hlen & Hl).
    exists (current :: l). rewrite E, <- app_assoc. simpl.
    split; [reflexivity|]. split; [now rewrite Hlen|]. split; [reflexivity|].
    destruct l as [|x rest]; [exact I|]. destruct Hl as [-> Hl]. simpl.
    split; [lia|exact Hl].
Qed.

Lemma locality_steps_increasing (l : list Z) :
  forall x, locality_steps x l -> (forall y, In y l -> x < y) /\ NoDup l.
Proof.
  induction l as [|z l IH]; intros x H; simpl in *.
  - split; [intros y []|constructor].
  - destruct H as [Hz Hl]. destruct (IH z Hl) as [Hlt Hnd]. split.
    + intros y [<-|Hy]; [lia|]. specialize (Hlt y Hy). lia.
    + constructor; [|exact Hnd]. intros Hin. specialize (Hlt z Hin). lia.
Qed.

(** X17. For each of the four known patterns the generated sequence has
    exactly [length] elements, and none when [length] is negative. *)
Theorem pattern_length (pattern_type : string) (length : Z) (g : Rng) :
  In pattern_type ["sequential"; "random"; "locality"; "stride"]%string ->
  List.length (fst (generate_access_pattern pattern_type length g)) = Z.to_nat length.
Proof.
  intros [<-|[<-|[<-|[<-|[]]]]]; unfold generate_access_pattern; simpl String.eqb; cbv iota.
  - simpl fst. apply range_length.
  - rewrite random_draws_length. apply range_length.
  - destruct (locality_walk_shape (range length) [] 0 g) as (l & E & Hlen & _).
    rewrite E. simpl. rewrite Hlen. apply range_length.
  - simpl fst. rewrite length_map. apply range_length.
Qed.

Lemma pattern_length_witness :
  In "locality"%string ["sequential"; "random"; "locality"; "stride"]%string /\
  List.length (fst (generate_access_pattern "locality" 6 zeros)) = Z.to_nat 6.
Proof.
  assert (H : In "locality"%string ["sequential"; "random"; "locality"; "stride"]%string)
    by (simpl; auto).
  split; [exact H|]. apply (pattern_length "locality" 6 zeros H).
Defined.

(** X18. Any other pattern name gives the empty sequence, without an
    error and without a draw. *)
Theorem unknown_pattern_is_empty (pattern_type : string) (length : Z) (g : Rng) :
  ~ In pattern_type ["sequential"; "random"; "locality"; "stride"]%string ->
  generate_access_pattern pattern_type length g = ([], g).
Proof.
  intros H. unfold generate_access_pattern.
  destruct (String.eqb_spec pattern_type "sequential") as [->|_]; [exfalso; apply H; simpl; auto|].
  destruct (String.eqb_spec pattern_type "random") as [->|_]; [exfalso; apply H; simpl; auto|].
  destruct (String.eqb_spec pattern_type "locality") as [->|_]; [exfalso; apply H; simpl; auto|].
  destruct (String.eqb_spec pattern_type "stride") as [->|_]; [exfalso; apply H; simpl; auto|].
  reflexivity.
Qed.

Lemma unknown_pattern_is_empty_witness :
  ~ In "Stride"%string ["sequential"; "random"; "locality"; "stride"]%string /\
  generate_access_pattern "Stride" 5 zeros = ([], zeros).
Proof.
  assert (H : ~ In "Stride"%string ["sequential"; "random"; "locality"; "stride"]%string).
  { simpl. intros [H|[H|[H|[H|[]]]]]; discriminate H. }
  split; [exact H|]. apply (unknown_pattern_is_empty "Stride" 5 zeros H).
Defined.

(** X19. Every address of the random pattern lies between 0 and
    [length // 2], bounds included. *)
Theorem random_pattern_bounds (length : Z) (g : Rng) (x : Z) :
  In x (fst (generate_access_pattern "random" length g)) ->
  0 <= x <= length / 2.
Proof.
  unfold generate_access_pattern. simpl String.eqb. cbv iota. intros H.
  destruct (Z.leb_spec length 0) as [Hn|Hp].
  - unfold range in H. replace (Z.to_nat length) with O in H by lia. destruct H.
  - apply (random_draws_bounds (range length) (length / 2)) with (g := g); [|exact H].
    apply Z.div_pos; lia.
Qed.

Lemma random_pattern_bounds_witness :
  In 2 (fst (generate_access_pattern "random" 4 (fun _ => 5%N))) /\ 0 <= 2 <= 4 / 2.
Proof.
  assert (H : In 2 (fst (generate_access_pattern "random" 4 (fun _ => 5%N))))
    by (vm_compute; auto).
  split; [exact H|]. apply (random_pattern_bounds 4 (fun _ => 5%N) 2 H).
Defined.

(** X20. The locality pattern starts at 0 and each address exceeds the
    one before it by a step between 1 and 5 or between 20 and 100; so
    the pattern is strictly increasing and no address occurs twice. *)
Theorem locality_pattern_shape (length : Z) (g : Rng) :
  match fst (generate_access_pattern "locality" length g) with
  | [] => length <= 0
  | x :: rest => x = 0 /\ locality_steps 0 rest
  end /\
  NoDup (fst (generate_access_pattern "locality" length g)).
Proof.
  unfold generate_access_pattern. simpl String.eqb. cbv iota.
  destruct (locality_walk_shape (range length) [] 0 g) as (l & E & Hlen & Hl).
  rewrite E. simpl app. rewrite range_length in Hlen.
  destruct l as [|x rest].
  - split; [simpl in Hlen; lia|constructor].
  - destruct Hl as [-> Hl]. split; [now split|].
    destruct (locality_steps_increasing rest 0 Hl) as [Hlt Hnd].
    constructor; [|exact Hnd]. intros Hin. specialize (Hlt 0 Hin). lia.
Qed.

Lemma NoDup_map_injective (f : Z -> Z) (l : list Z) :
  (forall x y, f x = f y -> x = y) -> NoDup l -> NoDup (map f l).
Proof.
  intros Hf. induction 1 as [|x l Hx Hnd IH]; simpl; constructor; [|exact IH].
  rewrite in_map_iff. intros (y & Hy & Hin). apply Hf in Hy. subst y. contradiction.
Qed.

(** X21. The sequential, stride and locality patterns never repeat an
    address, so on a new cache of capacity at least 1 they give a hit
    rate of 0.0 under every policy, whatever the capacity and the
    sources of randomness. *)
Theorem monotone_patterns_never_hit
  (pattern_type : string) (length c : Z) (p : ReplacementPolicy) (g g' : Rng) :
  In pattern_type ["sequential"; "stride"; "locality"]%string ->
  1 <= c ->
  NoDup (fst (generate_access_pattern pattern_type length g')) /\
  fst (calls (fst (generate_access_pattern pattern_type length g')) (fresh c p, g)) =
    map (fun _ => Ret false) (fst (generate_access_pattern pattern_type length g')) /\
  get_hit_rate (fst (after (fst (generate_access_pattern pattern_type length g')) c p g)) =
    Float.zero.
Proof.
  intros Hin Hc.
  assert (Hnd : NoDup (fst (generate_access_pattern pattern_type length g'))).
  { destruct Hin as [<-|[<-|[<-|[]]]].
    - apply range_NoDup.
    - unfold generate_access_pattern. simpl String.eqb. cbv iota. simpl fst.
      apply NoDup_map_injective; [intros x y; lia|apply range_NoDup].
    - apply locality_pattern_shape. }
  split; [exact Hnd|].
  destruct (distinct_addresses_never_hit c p g _ Hc Hnd) as (H1 & _ & H3). now split.
Qed.

Lemma monotone_patterns_never_hit_witness :
  In "locality"%string ["sequential"; "stride"; "locality"]%string /\ 1 <= 2 /\
  NoDup (fst (generate_access_pattern "locality" 5 zeros)) /\
  fst (calls (fst (generate_access_pattern "locality" 5 zeros)) (fresh 2 LRU, zeros)) =
    map (fun _ => Ret false) (fst (generate_access_pattern "locality" 5 zeros)) /\
  get_hit_rate (fst (after (fst (generate_access_pattern "locality" 5 zeros)) 2 LRU zeros)) =
    Float.zero.
Proof.
  assert (H : In "locality"%string ["sequential"; "stride"; "locality"]%string)
    by (simpl; auto).
  split; [exact H|]. split; [lia|].
  apply (monotone_patterns_never_hit "locality" 5 2 LRU zeros zeros H). lia.
Defined.

(** ** [compare_policies] *)

Lemma simulate_with_capacity
  (size : Z) (p : ReplacementPolicy) (pattern : list Z) (g : Rng) :
  1 <= size ->
  simulate size p pattern g =
  (Ret (final_hit_rate pattern size p g), snd (after pattern size p g)).
Proof.
  intros H. unfold simulate, __init__, final_hit_rate.
  destruct (access_returns_with_capacity size p g pattern 0 H) as (_ & -> & _).
  now destruct (after pattern size p g).
Qed.

Lemma simulate_without_capacity
  (size : Z) (p : ReplacementPolicy) (pattern : list Z) (g : Rng) :
  size <= 0 -> pattern <> [] ->
  simulate size p pattern g = (Exc (empty_cache_error p), g).
Proof.
  intros H Hne. destruct pattern as [|a rest]; [congruence|].
  unfold simulate, __init__. simpl run. unfold bind.
  rewrite (access_without_room (fresh size p) g a (consistent_fresh size p) H eq_refl).
  reflexivity.
Qed.

Lemma results_append_row (p : ReplacementPolicy) (x : Float.t)
  (l1 l2 l3 l4 : list Float.t) :
  results_append (value p) x (results_table l1 l2 l3 l4) =
  Ret (match p with
       | LRU => results_table (l1 ++ [x]) l2 l3 l4
       | FIFO => results_table l1 (l2 ++ [x]) l3 l4
       | LFU => results_table l1 l2 (l3 ++ [x]) l4
       | RANDOM => results_table l1 l2 l3 (l4 ++ [x])
       end).
Proof. destruct p; reflexivity. Qed.

Lemma simulate_deterministic
  (size : Z) (p : ReplacementPolicy) (pattern : list Z) (g : Rng) :
  1 <= size -> p <> RANDOM ->
  simulate size p pattern g = (Ret (final_hit_rate pattern size p zeros), g).
Proof.
  intros H Hp. rewrite simulate_with_capacity by exact H. unfold final_hit_rate.
  destruct (deterministic_policies_ignore_random size p g zeros pattern Hp) as (_ & -> & ->).
  reflexivity.
Qed.

Lemma compare_one_size_returns
  (size : Z) (pattern : list Z) (l1 l2 l3 l4 : list Float.t) (g : Rng) :
  1 <= size ->
  compare_one_size size pattern policies (results_table l1 l2 l3 l4) g =
  (Ret (results_table (l1 ++ [final_hit_rate pattern size LRU zeros])
          (l2 ++ [final_hit_rate pattern size FIFO zeros])
          (l3 ++ [final_hit_rate pattern size LFU zeros])
          (l4 ++ [final_hit_rate pattern size RANDOM g])),
   snd (after pattern size RANDOM g)).
Proof.
  intros H. unfold policies. cbn [compare_one_size].
  rewrite (simulate_deterministic size LRU pattern g H) by discriminate.
  rewrite results_append_row.
  rewrite (simulate_deterministic size FIFO pattern g H) by discriminate.
  rewrite results_append_row.
  rewrite (simulate_deterministic size LFU pattern g H) by discriminate.
  rewrite results_append_row.
  rewrite (simulate_with_capacity size RANDOM pattern g H).
  rewrite results_append_row. reflexivity.
Qed.

Lemma compare_sizes_returns (pattern : list Z) (sizes : list Z) :
  forall (l1 l2 l3 l4 : list Float.t) (g : Rng),
    Forall (fun size => 1 <= size) sizes ->
    exists random g',
      compare_sizes pattern sizes (results_table l1 l2 l3 l4) g =
      (Ret (results_table
              (l1 ++ map (fun size => final_hit_rate pattern size LRU zeros) sizes)
              (l2 ++ map (fun size => final_hit_rate pattern size FIFO zeros) sizes)
              (l3 ++ map (fun size => final_hit_rate pattern size LFU zeros) sizes)
              (l4 ++ random)), g') /\
      List.length random = List.length sizes.
Proof.
  induction sizes as [|size sizes IH]; intros l1 l2 l3 l4 g Hall.
  - exists [], g. simpl. rewrite !app_nil_r. now split.
  - inversion Hall as [|? ? Hsize Hrest]; subst.
    cbn [compare_sizes]. rewrite (compare_one_size_returns size pattern l1 l2 l3 l4 g Hsize).
    destruct (IH (l1 ++ [final_hit_rate pattern size LRU zeros])
                 (l2 ++ [final_hit_rate pattern size FIFO zeros])
                 (l3 ++ [final_hit_rate pattern size LFU zeros])
                 (l4 ++ [final_hit_rate pattern size RANDOM g])
                 (snd (after pattern size RANDOM g)) Hrest)
      as (random & g' & E & Hlen).
    exists (final_hit_rate pattern size RANDOM g :: random), g'.
    rewrite E. simpl map. rewrite <- !app_assoc. simpl. split; [reflexivity|now rewrite Hlen].
Qed.

(** X22. When every cache size is at least 1, [compare_policies] runs to
    its end.  The table it plots has the four rows in the order LRU,
    FIFO, LFU, Random, each with one hit rate per cache size, in the order
    of the sizes; the rates of LRU, FIFO and LFU are those of a run of the
    pattern on a new cache of that size and do not depend on the source
    of randomness. *)
Theorem compare_policies_table (pattern : list Z) (sizes : list Z) (g : Rng) :
  Forall (fun size => 1 <= size) sizes ->
  exists random g',
    compare_policies pattern sizes g =
    (Ret (results_table
            (map (fun size => final_hit_rate pattern size LRU zeros) sizes)
            (map (fun size => final_hit_rate pattern size FIFO zeros) sizes)
            (map (fun size => final_hit_rate pattern size LFU zeros) sizes)
            random), g') /\
    List.length random = List.length sizes.
Proof.
  intros Hall. exact (compare_sizes_returns pattern sizes [] [] [] [] g Hall).
Qed.

Lemma compare_policies_table_witness :
  Forall (fun size => 1 <= size) [1; 2] /\
  exists random g',
    compare_policies [1; 2; 1; 3] [1; 2] zeros =
    (Ret (results_table
            (map (fun size => final_hit_rate [1; 2; 1; 3] size LRU zeros) [1; 2])
            (map (fun size => final_hit_rate [1; 2; 1; 3] size FIFO zeros) [1; 2])
            (map (fun size => final_hit_rate [1; 2; 1; 3] size LFU zeros) [1; 2])
            random), g') /\
    List.length random = List.length [1; 2].
Proof.
  assert (H : Forall (fun size => 1 <= size) [1; 2]) by (repeat constructor; lia).
  split; [exact H|]. apply (compare_policies_table [1; 2; 1; 3] [1; 2] zeros H).
Defined.

(** X23. When the pattern is not empty and some cache size is 0 or
    less, [compare_policies] ends on StopIteration, raised by the LRU
    simulation at the first such size: nothing is plotted. *)
Theorem compare_policies_raises
  (pattern : list Z) (before : list Z) (size : Z) (rest : list Z) (g : Rng) :
  pattern <> [] ->
  Forall (fun size => 1 <= size) before -> size <= 0 ->
  fst (compare_policies pattern (before ++ size :: rest) g) = Exc StopIteration.
Proof.
  intros Hne Hall Hsize. unfold compare_policies.
  change (map (fun p => (value p, [])) policies) with (results_table [] [] [] []).
  generalize (@nil Float.t) at 1 as l1. generalize (@nil Float.t) at 1 as l2.
  generalize (@nil Float.t) at 1 as l3. generalize (@nil Float.t) at 1 as l4.
  revert g. induction Hall as [|z before Hz Hall IH]; intros g l4 l3 l2 l1.
  - simpl app. cbn [compare_sizes]. unfold policies. cbn [compare_one_size].
    rewrite (simulate_without_capacity size LRU pattern g Hsize Hne). reflexivity.
  - rewrite <- app_comm_cons. cbn [compare_sizes].
    rewrite (compare_one_size_returns z pattern l1 l2 l3 l4 g Hz). apply IH.
Qed.

Lemma compare_policies_raises_witness :
  [1; 2] <> [] /\ Forall (fun size => 1 <= size) [4] /\ 0 <= 0 /\
  fst (compare_policies [1; 2] ([4] ++ 0 :: [8]) zeros) = Exc StopIteration.
Proof.
  assert (H1 : [1; 2] <> ([] : list Z)) by discriminate.
  assert (H2 : Forall (fun size => 1 <= size) [4]) by (repeat constructor; lia).
  split; [exact H1|]. split; [exact H2|]. split; [lia|].
  apply (compare_policies_raises [1; 2] [4] 0 [8] zeros H1 H2). lia.
Defined.

Lemma compare_sizes_empty_pattern (sizes : list Z) :
  forall (l1 l2 l3 l4 : list Float.t) (g : Rng),
    compare_sizes [] sizes (results_table l1 l2 l3 l4) g =
    (Ret (results_table (l1 ++ map (fun _ => Float.zero) sizes)
            (l2 ++ map (fun _ => Float.zero) sizes)
            (l3 ++ map (fun _ => Float.zero) sizes)
            (l4 ++ map (fun _ => Float.zero) sizes)), g).
Proof.
  induction sizes as [|size sizes IH]; intros l1 l2 l3 l4 g.
  - simpl. now rewrite !app_nil_r.
  - cbn [compare_sizes]. unfold policies. cbn [compare_one_size].
    unfold simulate, __init__. cbn [run]. unfold ret.
    rewrite !results_append_row.
    change (get_hit_rate (fresh size LRU)) with Float.zero.
    change (get_hit_rate (fresh size FIFO)) with Float.zero.
    change (get_hit_rate (fresh size LFU)) with Float.zero.
    change (get_hit_rate (fresh size RANDOM)) with Float.zero.
    rewrite IH. simpl map. now rewrite <- !app_assoc.
Qed.

(** X24. On an empty pattern [compare_policies] never raises, whatever
    the cache sizes, 0 and negative ones included: every hit rate of the
    table is 0.0 and no randomness is used. *)
Theorem compare_policies_empty_pattern (sizes : list Z) (g : Rng) :
  compare_policies [] sizes g =
  (Ret (results_table (map (fun _ => Float.zero) sizes) (map (fun _ => Float.zero) sizes)
          (map (fun _ => Float.zero) sizes) (map (fun _ => Float.zero) sizes)), g).
Proof. exact (compare_sizes_empty_pattern sizes [] [] [] [] g). Qed.
